(** * UIFlow: channels, flow definitions and the FlowRunner state machine

    A shallow embedding of [flow.tsx].  The repository holds three snapshots
    of the file.  The one embedded at top level is the snapshot with
    [channelTransitions] and [eventChannelsStrategy]; the oldest snapshot has
    the same [createFlowChannel] and [applyTransition], its [defineFlow] is
    in [Snapshot0] and its channel binding in [Snapshot0Runner]; the newest
    snapshot adds the render policy of action steps, which is in
    [Snapshot2].

    Modelling conventions.
    - A JavaScript object used as a dictionary ([FlowSteps], [FlowData],
      [EventChannels], the resolver table) is a [gmap string _] of its own
      enumerable properties.  Its prototype is [Object.prototype], and
      [Object.prototype] has its standard members ([objectPrototype]) and
      no other.  Reading [o[key]] finds an own property first and a member of
      [Object.prototype] otherwise ([readProperty], [readFound]); a read
      that finds neither yields [undefined].  No object has an own property
      named [__proto__]: an object literal or an assignment cannot make one
      (only [Object.defineProperty], a computed key or [JSON.parse] can), and
      on such a map the assignment [candidate[key] = ...] of the [sticky]
      strategy would call the setter inherited from [Object.prototype].
    - The [eventChannels] prop is typed: its own properties hold channels
      ([TypedChannels]).  The maps the runner builds from it may hold
      members of [Object.prototype] as well ([EventChannels]).
    - Object identity matters for channel maps (the runner compares channels
      with [===] and React compares effect dependencies with [Object.is]):
      a channel is known by a reference, a channel map carries an identity
      next to its bindings.  Objects handed to the runner are not mutated
      behind its back, so two maps are the same object exactly when identity
      and bindings agree.
    - The entries of a map are enumerated in the order of [map_to_list],
      where the code follows the property order of the object; nothing
      proved depends on the order of enumeration.
    - A [Set] is its ECMAScript entry list: [add] appends, [delete] leaves an
      empty slot, [forEach] walks the list by index and re-reads its length
      after every callback.
    - Callbacks supplied by the user (step functions, resolvers, listeners)
      may throw; [await] of a rejected promise is a throw.  An asynchronous
      function is run to completion in one go.  The values stored in the
      flow's data are immutable; the data object itself is mutated in
      place by the callbacks and copied by every [setState].
    - A channel listener is a closure of the render whose effect subscribed
      it, and an output handle is a closure of the render that made it: they
      see the step and the data object of that render ([Closure]). *)

From stdpp Require Import base option list strings gmap fin_maps fin_map_dom.

Set Default Proof Using "Type".

(** ** Completions *)

Inductive JsError : Type :=
  | Error (message : string)
  | TypeError (message : string).

(** The result of running code that may throw, or may still be running
    when the step budget is used up. *)
Inductive Outcome (W : Type) : Type :=
  | Returned (w : W)
  | Thrown (e : JsError) (w : W)
  | OutOfFuel.
Arguments Returned {W} w.
Arguments Thrown {W} e w.
Arguments OutOfFuel {W}.

(** The result of a call that either returns a value or throws. *)
Inductive Result (X : Type) : Type :=
  | Ok (x : X)
  | Raise (e : JsError).
Arguments Ok {X} x.
Arguments Raise {X} e.

(** Truthiness of a string; [undefined] (a [void] result) is [None]. *)
Definition truthy (s : string) : bool :=
  match s with
  | EmptyString => false
  | String _ _ => true
  end.

Definition truthyOpt (s : option string) : bool := from_option truthy false s.

(** ** Property reads *)

(** The names of the members of [Object.prototype]. *)
Definition objectPrototype : list string :=
  [ "constructor"; "__defineGetter__"; "__defineSetter__"; "hasOwnProperty";
    "__lookupGetter__"; "__lookupSetter__"; "isPrototypeOf";
    "propertyIsEnumerable"; "toString"; "valueOf"; "__proto__";
    "toLocaleString" ].

(** What a property read yields where a value of type [A] is declared: such
    a value, or the member [name] of [Object.prototype] (a function, or for
    [__proto__] the prototype object itself; all of them truthy). *)
Inductive Found (A : Type) : Type :=
  | Declared (a : A)
  | Builtin (name : string).
Arguments Declared {A} a.
Arguments Builtin {A} name.

#[global] Instance Found_eq_dec {A : Type} `{EqDecision A} : EqDecision (Found A).
Proof. solve_decision. Defined.

(** [o[key]] on an object whose own properties hold values of type [A];
    [None] is [undefined]. *)
Definition readProperty {A : Type} (o : gmap string A) (key : string)
    : option (Found A) :=
  match o !! key with
  | Some a => Some (Declared a)
  | None => if bool_decide (key ∈ objectPrototype) then Some (Builtin key) else None
  end.

(** [o[key]] on an object whose own properties may themselves hold members
    of [Object.prototype]. *)
Definition readFound {A : Type} (o : gmap string (Found A)) (key : string)
    : option (Found A) :=
  match o !! key with
  | Some v => Some v
  | None => if bool_decide (key ∈ objectPrototype) then Some (Builtin key) else None
  end.

(** ** ECMAScript [Set] *)

(** [[SetData]]: the entries in insertion order; [None] is an entry emptied
    by [delete]. *)
Abbreviation SetData A := (list (option A)) (only parsing).

Section JsSet.
Context {A : Type} `{EqDecision A}.

Definition Set_has (x : A) (s : SetData A) : bool := bool_decide (Some x ∈ s).

Definition Set_add (x : A) (s : SetData A) : SetData A :=
  if Set_has x s then s else s ++ [Some x].

Definition Set_delete (x : A) (s : SetData A) : SetData A :=
  (λ e, if decide (e = Some x) then None else e) <$> s.

(** The live entries, in insertion order. *)
Definition Set_values (s : SetData A) : list A := omap id s.

Definition Set_size (s : SetData A) : nat := length (Set_values s).

(** [Set.prototype.forEach]: [index] runs over the entry list of the set
    as it is after each call of the callback. *)
Fixpoint Set_forEach {W : Type} (fuel : nat) (entries : W → SetData A)
    (callbackfn : A → W → Outcome W) (index : nat) (w : W) : Outcome W :=
  match fuel with
  | 0 => OutOfFuel
  | S fuel' =>
      match entries w !! index with
      | None => Returned w
      | Some None => Set_forEach fuel' entries callbackfn (S index) w
      | Some (Some e) =>
          match callbackfn e w with
          | Returned w' => Set_forEach fuel' entries callbackfn (S index) w'
          | abrupt => abrupt
          end
      end
  end.

End JsSet.

(** ** createFlowChannel *)

(** A listener closure is known by its identity. *)
Definition Listener : Type := nat.

Section Channel.
Context {T : Type}.

(** [Updater<T> = T | ((prev: T) => T)], told apart by [typeof]. *)
Inductive Updater : Type :=
  | Direct (v : T)
  | Callable (f : T → T).

(** The closure state of one channel. *)
Record FlowChannel : Type := mkFlowChannel {
  value : T;
  listeners : SetData Listener;
}.

(** A channel together with the record of the listener calls made so far. *)
Record World : Type := mkWorld {
  chan : FlowChannel;
  calls : list Listener;
}.

(** What a listener does to the channel it listens to when it is called. *)
Inductive Op : Type :=
  | CallSubscribe (l : Listener)
  | CallUnsubscribe (l : Listener)
  | CallEmit (u : Updater)
  | DoThrow (e : JsError).

Definition createFlowChannel (initial : T) : FlowChannel :=
  {| value := initial; listeners := [] |}.

Definition get (c : FlowChannel) : T := value c.

(** [listeners.add(listener)]; the closure that [subscribe] returns is
    [unsubscribe listener]. *)
Definition subscribe (listener : Listener) (c : FlowChannel) : FlowChannel :=
  {| value := value c; listeners := Set_add listener (listeners c) |}.

Definition unsubscribe (listener : Listener) (c : FlowChannel) : FlowChannel :=
  {| value := value c; listeners := Set_delete listener (listeners c) |}.

Definition applyUpdate (update : Updater) (prev : T) : T :=
  match update with
  | Callable f => f prev
  | Direct v => v
  end.

Definition commit (next : T) (w : World) : World :=
  {| chan := {| value := next; listeners := listeners (chan w) |};
     calls := calls w |}.

Definition called (l : Listener) (w : World) : World :=
  {| chan := chan w; calls := calls w ++ [l] |}.

Definition onChannel (f : FlowChannel → FlowChannel) (w : World) : World :=
  {| chan := f (chan w); calls := calls w |}.

Section Emit.
(** The code of every listener closure. *)
Variable body : Listener → list Op.

Fixpoint runOps (emit' : Updater → World → Outcome World)
    (ops : list Op) (w : World) : Outcome World :=
  match ops with
  | [] => Returned w
  | op :: rest =>
      let r :=
        match op with
        | CallSubscribe l => Returned (onChannel (subscribe l) w)
        | CallUnsubscribe l => Returned (onChannel (unsubscribe l) w)
        | CallEmit u => emit' u w
        | DoThrow e => Thrown e w
        end in
      match r with
      | Returned w' => runOps emit' rest w'
      | abrupt => abrupt
      end
  end.

(** [l()] *)
Definition callListener (emit' : Updater → World → Outcome World)
    (l : Listener) (w : World) : Outcome World :=
  runOps emit' (body l) (called l w).

(** [emit]: assign [value], then [listeners.forEach((l) => l())]. *)
Fixpoint emit (fuel : nat) (update : Updater) (w : World) : Outcome World :=
  match fuel with
  | 0 => OutOfFuel
  | S fuel' =>
      let w1 := commit (applyUpdate update (value (chan w))) w in
      Set_forEach fuel' (λ w, listeners (chan w))
        (callListener (emit fuel')) 0 w1
  end.

(** Every live listener of [s] only observes: it returns without touching
    the channel. *)
Definition quiet (s : SetData Listener) : bool :=
  forallb (λ l, bool_decide (body l = [])) (Set_values s).

End Emit.
End Channel.
Arguments Updater T : clear implicits.
Arguments FlowChannel T : clear implicits.
Arguments World T : clear implicits.
Arguments Op T : clear implicits.

(** ** Channel maps *)

Definition Ident : Type := nat.

(** The identity of a [FlowChannel] object. *)
Definition ChanRef : Type := nat.

(** [EventChannels = Record<string, FlowChannel<any>>], with the identity of
    the map object itself.  A map the runner has built may bind a key to a
    member of [Object.prototype]. *)
Record EventChannels : Type := mkEventChannels {
  ident : Ident;
  bindings : gmap string (Found ChanRef);
}.

#[global] Instance EventChannels_eq_dec : EqDecision EventChannels.
Proof. solve_decision. Defined.

(** The [eventChannels] prop as its type has it: every own property holds
    a channel. *)
Record TypedChannels : Type := mkTypedChannels {
  typed_ident : Ident;
  channels : gmap string ChanRef;
}.

#[global] Instance TypedChannels_eq_dec : EqDecision TypedChannels.
Proof. solve_decision. Defined.

(** The prop as the object it is. *)
Definition asEventChannels (m : TypedChannels) : EventChannels :=
  {| ident := typed_ident m; bindings := Declared <$> channels m |}.

Coercion asEventChannels : TypedChannels >-> EventChannels.

Inductive Strategy : Type := sticky | replace.

(** The default of the [eventChannelsStrategy] prop. *)
Definition eventChannelsStrategyOf (given : option Strategy) : Strategy :=
  default sticky given.

(** What the runner keeps between renders to bind channels:
    [resolvedChannelsRef.current], and the supply of fresh object
    identities for the maps it builds. *)
Record Binding : Type := mkBinding {
  resolvedChannelsRef : option EventChannels;
  nextObject : Ident;
}.

(** [candidate[key] = prev?.[key] ?? channel] for every entry of
    [incoming]. *)
Definition stickyBindings (prev : option EventChannels)
    (incoming : gmap string ChanRef) : gmap string (Found ChanRef) :=
  map_imap (λ key channel,
    Some (default (Declared channel) (prev ≫= λ p, readFound (bindings p) key)))
    incoming.

Definition candidateOf (strategy : Strategy) (prev : option EventChannels)
    (incoming : TypedChannels) (fresh : Ident) : EventChannels :=
  match strategy with
  | sticky => {| ident := fresh; bindings := stickyBindings prev (channels incoming) |}
  | replace => incoming
  end.

(** The identity supply after the candidate is built: only [sticky]
    creates an object. *)
Definition allocated (strategy : Strategy) (fresh : Ident) : Ident :=
  match strategy with
  | sticky => S fresh
  | replace => fresh
  end.

(** [prevKeys.length === candidateKeys.length &&
     candidateKeys.every((k) => prev[k] === candidate[k])] *)
Definition sameChannels (prev candidate : EventChannels) : bool :=
  bool_decide (size (bindings prev) = size (bindings candidate))
  && bool_decide (map_Forall (λ k c, readFound (bindings prev) k = Some c)
                    (bindings candidate)).

Definition getResolvedChannels (strategy : Strategy)
    (eventChannels : option TypedChannels) (b : Binding)
    : option EventChannels * Binding :=
  let prev := resolvedChannelsRef b in
  match eventChannels with
  | None => (None, {| resolvedChannelsRef := None; nextObject := nextObject b |})
  | Some incoming =>
      let candidate := candidateOf strategy prev incoming (nextObject b) in
      let next := allocated strategy (nextObject b) in
      match prev with
      | Some p =>
          if sameChannels p candidate
          then (Some p, {| resolvedChannelsRef := Some p; nextObject := next |})
          else (Some candidate,
                {| resolvedChannelsRef := Some candidate; nextObject := next |})
      | None =>
          (Some candidate,
           {| resolvedChannelsRef := Some candidate; nextObject := next |})
      end
  end.

(** The binding after a run of renders, each with its own [eventChannels]
    prop. *)
Definition resolveAll (strategy : Strategy)
    (props : list (option TypedChannels)) (b : Binding) : Binding :=
  foldl (λ b eventChannels, (getResolvedChannels strategy eventChannels b).2) b props.

(** What [key] is bound to at the moment, by an own property of the map in
    the ref. *)
Definition boundChannel (b : Binding) (key : string) : option (Found ChanRef) :=
  resolvedChannelsRef b ≫= λ r, bindings r !! key.

(** No key of the prop is the name of a member of [Object.prototype]. *)
Definition plainKeys (m : TypedChannels) : Prop :=
  map_Forall (λ key _, key ∉ objectPrototype) (channels m).

(** The channel that a map binds, if it is one. *)
Definition channelOf (v : Found ChanRef) : option ChanRef :=
  match v with
  | Declared ch => Some ch
  | Builtin _ => None
  end.

(** Every own property of the map holds a channel. *)
Definition channelsOnly (r : EventChannels) : Prop :=
  map_Forall (λ _ v, is_Some (channelOf v)) (bindings r).

(** ** The subscription effect *)

(** Calls made on channels: [ch.subscribe(listener)], and the function it
    returned. *)
Inductive SubscriptionCall : Type :=
  | SubscribeCall (channelKey : string) (ch : ChanRef)
  | UnsubscribeCall (channelKey : string) (ch : ChanRef).

(** The [useEffect] slot of the subscription effect: the dependencies of its
    last run ([flow.channelTransitions] by identity, and the resolved map),
    the subscriptions its cleanup will undo, every call made so far, and
    what the last run threw, if it threw: React then takes the component
    down. *)
Record SubscriptionEffect : Type := mkSubscriptionEffect {
  lastDeps : option (option Ident * option EventChannels);
  unsubs : list (string * ChanRef);
  channelCalls : list SubscriptionCall;
  thrown : option JsError;
}.

Definition depsChanged (last : option (option Ident * option EventChannels))
    (deps : option Ident * option EventChannels) : bool :=
  match last with
  | None => true
  | Some d => negb (bool_decide (d = deps))
  end.

(** [Object.entries(resolvedEventChannels).map(([channelKey, ch]) =>
    ch.subscribe(...))]: the subscriptions made, and the error of the first
    entry that is no channel, where [ch.subscribe] is [undefined].  Which
    entries come before that one is a matter of the order of enumeration. *)
Fixpoint subscribeEntries (entries : list (string * Found ChanRef))
    : list (string * ChanRef) * option JsError :=
  match entries with
  | [] => ([], None)
  | (channelKey, Declared ch) :: rest =>
      let '(subscribed, error) := subscribeEntries rest in
      ((channelKey, ch) :: subscribed, error)
  | (_, Builtin _) :: _ => ([], Some (TypeError "ch.subscribe is not a function"))
  end.

(** One commit of the effect with dependencies
    [[flow.channelTransitions, resolvedEventChannels]].  When a [subscribe]
    call throws, the effect has returned no cleanup. *)
Definition subscriptionEffect (channelTransitionsId : option Ident)
    (resolvedEventChannels : option EventChannels) (e : SubscriptionEffect)
    : SubscriptionEffect :=
  let deps := (channelTransitionsId, resolvedEventChannels) in
  if depsChanged (lastDeps e) deps then
    let cleaned := channelCalls e ++ (uncurry UnsubscribeCall <$> unsubs e) in
    match resolvedEventChannels with
    | None =>
        {| lastDeps := Some deps; unsubs := []; channelCalls := cleaned;
           thrown := None |}
    | Some r =>
        let '(subscribed, error) := subscribeEntries (map_to_list (bindings r)) in
        {| lastDeps := Some deps;
           unsubs := match error with None => subscribed | Some _ => [] end;
           channelCalls := cleaned ++ (uncurry SubscribeCall <$> subscribed);
           thrown := error |}
    end
  else e.

(** One render followed by its commit, as far as channels go. *)
Definition renderChannels (strategy : Strategy) (channelTransitionsId : option Ident)
    (eventChannels : option TypedChannels) (s : Binding * SubscriptionEffect)
    : option EventChannels * (Binding * SubscriptionEffect) :=
  let '(resolved, b') := getResolvedChannels strategy eventChannels s.1 in
  (resolved, (b', subscriptionEffect channelTransitionsId resolved s.2)).

(** The channels among the entries of a map. *)
Definition channelEntries (r : EventChannels) : list (string * ChanRef) :=
  omap (λ entry, pair entry.1 <$> channelOf entry.2) (map_to_list (bindings r)).


(** ** Flow definitions *)

(** A React component is known by its name. *)
Definition ViewId : Type := string.

Section Flow.
Context {V : Type}.

(** A user callback working on the flow's mutable [data]: it returns or
    throws, and leaves [data] as it mutated it. *)
Definition Callback (X : Type) : Type := gmap string V → Result X * gmap string V.

Definition bindCallback {X Y : Type} (c : Callback X) (k : X → Callback Y)
    : Callback Y :=
  λ d, match c d with
       | (Ok x, d') => k x d'
       | (Raise e, d') => (Raise e, d')
       end.

Notation "'let*' x ':=' c 'in' k" := (bindCallback c (λ x, k))
  (at level 10, x name, c at level 100, k at level 200, only parsing).

(** [UiStep | ActionStep]: the runner tells them apart by which of [view]
    and [action] the object carries. *)
Record FlowStep : Type := mkFlowStep {
  input : option EventChannels → Callback V;
  view : option ViewId;
  action : option (V → option EventChannels → Callback V);
  onOutput : V → option EventChannels → Callback (option string);
}.

Record ChannelTransitionContext : Type := mkChannelTransitionContext {
  ctx_data : gmap string V;
  ctx_currentStep : string;
  ctx_events : option EventChannels;
  ctx_channelKey : string;
}.

(** A resolver returns or throws, and leaves the data object of its
    context as it mutated it. *)
Definition ChannelTransitionResolver : Type :=
  ChannelTransitionContext → Result (option string) * gmap string V.

(** [Record<string, ChannelTransitionResolver>], with the identity of the
    object. *)
Record ChannelTransitions : Type := mkChannelTransitions {
  transitionsId : Ident;
  resolvers : gmap string ChannelTransitionResolver;
}.

Record FlowDefinition : Type := mkFlowDefinition {
  steps : gmap string FlowStep;
  start : string;
  channelTransitions : option ChannelTransitions;
}.

Record DefineFlowOptions : Type := mkDefineFlowOptions {
  options_start : string;
  options_channelTransitions : option ChannelTransitions;
}.

(** [if (!options.start || !steps[options.start]) throw new Error(...)] *)
Definition defineFlow (steps : gmap string FlowStep) (options : DefineFlowOptions)
    : Result FlowDefinition :=
  if negb (truthy (options_start options))
     || negb (bool_decide (is_Some (readProperty steps (options_start options))))
  then Raise (Error ("defineFlow: 'start' must be provided and exist in steps. Got '"
                     +:+ options_start options +:+ "'."))
  else Ok {| steps := steps;
             start := options_start options;
             channelTransitions := options_channelTransitions options |}.

(** ** FlowRunner *)

Record RunnerState : Type := mkRunnerState {
  currentStep : string;
  data : gmap string V;
}.

(** The state of one mounted component instance.  [renders] counts the
    re-renders requested through the state setters, [console] is what
    [console.error] received. *)
Record Runner : Type := mkRunner {
  state : RunnerState;
  busy : bool;
  tick : nat;
  isMounted : bool;
  renders : nat;
  console : list (string * JsError);
}.

(** [setState(updater)] with an updater that builds a new object: React
    always re-renders. *)
Definition setState (updater : RunnerState → RunnerState) (r : Runner) : Runner :=
  {| state := updater (state r); busy := busy r; tick := tick r;
     isMounted := isMounted r; renders := S (renders r); console := console r |}.

(** [setBusy(b)]: React bails out when the value is the one it has. *)
Definition setBusy (b : bool) (r : Runner) : Runner :=
  {| state := state r; busy := b; tick := tick r; isMounted := isMounted r;
     renders := if bool_decide (busy r = b) then renders r else S (renders r);
     console := console r |}.

(** [setTick((x) => x + 1)] *)
Definition setTick (r : Runner) : Runner :=
  {| state := state r; busy := busy r; tick := S (tick r);
     isMounted := isMounted r; renders := S (renders r); console := console r |}.

Definition console_error (label : string) (e : JsError) (r : Runner) : Runner :=
  {| state := state r; busy := busy r; tick := tick r; isMounted := isMounted r;
     renders := renders r; console := console r ++ [(label, e)] |}.

(** A callback has mutated [state.data] in place: no setter is involved. *)
Definition mutated (d : gmap string V) (r : Runner) : Runner :=
  {| state := {| currentStep := currentStep (state r); data := d |};
     busy := busy r; tick := tick r; isMounted := isMounted r;
     renders := renders r; console := console r |}.

(** [{ ...d }] *)
Definition spread (d : gmap string V) : gmap string V := d.

(** [nextStepName] is what a callback returned: a step name, or [None] for
    [void].  [flow.steps[nextStepName]] is truthy when the name is an own
    key of [steps] and when it names a member of [Object.prototype]. *)
Definition applyTransition (flow : FlowDefinition) (nextStepName : option string)
    (r : Runner) : Runner :=
  if negb (isMounted r) then r
  else
    match nextStepName with
    | Some name =>
        if truthy name && bool_decide (is_Some (readProperty (steps flow) name))
        then setState (λ prev, {| currentStep := name; data := spread (data prev) |}) r
        else setState (λ prev, {| currentStep := currentStep prev;
                                  data := spread (data prev) |}) r
    | None =>
        setState (λ prev, {| currentStep := currentStep prev;
                             data := spread (data prev) |}) r
    end.

(** The render a closure belongs to: a render of the state object the
    runner has now, or a render from before the last [setState], of which
    the closure keeps the step name and the data object.  Every [setState]
    makes a new data object, so the data object of such an earlier render is
    not the one the runner has. *)
Inductive Closure : Type :=
  | OfThisRender
  | OfEarlierRender (captured : RunnerState).

(** [currentStep] and [data] as the closure sees them. *)
Definition capturedState (closure : Closure) (r : Runner) : RunnerState :=
  match closure with
  | OfThisRender => state r
  | OfEarlierRender captured => captured
  end.

(** The data object of the closure has been mutated: the runner sees it
    when the object is the one it has. *)
Definition mutatedThrough (closure : Closure) (d : gmap string V) (r : Runner)
    : Runner :=
  match closure with
  | OfThisRender => mutated d r
  | OfEarlierRender _ => r
  end.

(** What a member of [Object.prototype] does when it is called the way a
    resolver is, with the context object as argument and no receiver:
    [Object(context)] returns the context object, which reads
    [[object Object]] where a step name is used as a property key;
    [toString] returns the tag of [undefined]; [__proto__] is an object and
    cannot be called; every other member fails to convert its receiver
    (messages as V8 words them). *)
Definition callPrototypeMember (name : string) : Result (option string) :=
  if decide (name = "constructor") then Ok (Some "[object Object]")
  else if decide (name = "toString") then Ok (Some "[object Undefined]")
  else if decide (name = "__proto__")
       then Raise (TypeError "transition is not a function")
       else Raise (TypeError "Cannot convert undefined or null to object").

(** What the listener of channel [channelKey] does. *)
Definition runChannelTransition (flow : FlowDefinition)
    (resolvedEventChannels : option EventChannels) (channelKey : string)
    (closure : Closure) (r : Runner) : Runner :=
  match channelTransitions flow ≫= λ t, readProperty (resolvers t) channelKey with
  | None => setTick r
  | Some transition =>
      let context := {| ctx_data := data (capturedState closure r);
                        ctx_currentStep := currentStep (capturedState closure r);
                        ctx_events := resolvedEventChannels;
                        ctx_channelKey := channelKey |} in
      let '(result, r1) :=
        match transition with
        | Declared resolver =>
            let '(result, d') := resolver context in
            (result, mutatedThrough closure d' r)
        | Builtin name => (callPrototypeMember name, r)
        end in
      match result with
      | Ok nextStep =>
          if truthyOpt nextStep then applyTransition flow nextStep r1
          else setTick r1
      | Raise e =>
          setTick (console_error "FlowRunner channel transition error:" e r1)
      end
  end.

(** [(step as any).action && !(step as any).view] *)
Definition isActionStep (step : FlowStep) : bool :=
  bool_decide (is_Some (action step)) && negb (bool_decide (is_Some (view step))).

(** [try { body } catch (e) { handler } finally { finalizer }] *)
Definition tryCatchFinally (body : Runner → Result () * Runner)
    (handler : JsError → Runner → Result () * Runner)
    (finalizer : Runner → Runner) (r : Runner) : Result () * Runner :=
  let '(res, r1) := body r in
  let '(res', r2) :=
    match res with
    | Ok _ => (Ok (), r1)
    | Raise e => handler e r1
    end in
  (res', finalizer r2).

(** The three user callbacks of an action step, in the order the effect
    calls them. *)
Definition runAction (actionStep : FlowStep)
    (act : V → option EventChannels → Callback V)
    (resolvedEventChannels : option EventChannels) : Callback (option string) :=
  let* i := input actionStep resolvedEventChannels in
  let* output := act i resolvedEventChannels in
  onOutput actionStep output resolvedEventChannels.

(** The three ways in which running an action step throws. *)
Definition actionThrows (step : FlowStep) (act : V → option EventChannels → Callback V)
    (events : option EventChannels) (d : gmap string V) (e : JsError)
    (d' : gmap string V) : Prop :=
  input step events d = (Raise e, d')
  ∨ (∃ i d1, input step events d = (Ok i, d1) ∧ act i events d1 = (Raise e, d'))
  ∨ (∃ i d1 output d2,
        input step events d = (Ok i, d1) ∧ act i events d1 = (Ok output, d2)
        ∧ onOutput step output events d2 = (Raise e, d')).

(** The body of the effect that runs an action step; what it returns is how
    the promise of the asynchronous function settles.  A member of
    [Object.prototype] has no [action], so on such a step the effect
    returns at once.  The effect is set up only after a render that found
    the step, and an action step has an [action]: the two [None] branches
    are never taken. *)
Definition actionEffect (flow : FlowDefinition)
    (resolvedEventChannels : option EventChannels) (r : Runner)
    : Result () * Runner :=
  match readProperty (steps flow) (currentStep (state r)) with
  | None => (Ok (), r)
  | Some (Builtin _) => (Ok (), r)
  | Some (Declared step) =>
      if negb (isActionStep step) then (Ok (), r)
      else
        match action step with
        | None => (Ok (), r)
        | Some act =>
            tryCatchFinally
              (λ r,
                 let r1 := setBusy true r in
                 match runAction step act resolvedEventChannels (data (state r1)) with
                 | (Ok next, d') => (Ok (), applyTransition flow next (mutated d' r1))
                 | (Raise e, d') => (Raise e, mutated d' r1)
                 end)
              (λ e r, (Ok (), console_error "FlowRunner action step error:" e r))
              (λ r, if isMounted r then setBusy false r else r)
              r
        end
  end.

(** [outputHandle.emit(output)] of a UI step; the handle is a closure of
    the render that made it and hands the data object of that render to
    [onOutput]. *)
Definition outputHandle_emit (flow : FlowDefinition) (uiStep : FlowStep)
    (resolvedEventChannels : option EventChannels) (closure : Closure)
    (output : V) (r : Runner) : Result () * Runner :=
  tryCatchFinally
    (λ r,
       match onOutput uiStep output resolvedEventChannels
               (data (capturedState closure r)) with
       | (Ok next, d') =>
           (Ok (), applyTransition flow next (mutatedThrough closure d' r))
       | (Raise e, d') => (Raise e, mutatedThrough closure d' r)
       end)
    (λ e r, (Ok (), console_error "FlowRunner UI step onOutput error:" e r))
    (λ r, r)
    r.

(** What the component returns. *)
Inductive Element : Type :=
  | Div (text : option string)
  | ViewComponent (component : ViewId) (i : V).

(** The part of the component body that produces the element.  Reading
    [.action] of a missing step throws before the unknown-step branch is
    reached.  A member of [Object.prototype] found as the step has neither
    [action] nor [view] nor [input], so calling its [input] throws.  A step
    object with neither [view] nor [action] has its [input] called before
    React rejects the element whose type is [undefined]. *)
Definition render (flow : FlowDefinition)
    (resolvedEventChannels : option EventChannels) (r : Runner)
    : Result Element * Runner :=
  match readProperty (steps flow) (currentStep (state r)) with
  | None =>
      (Raise (TypeError "Cannot read properties of undefined (reading 'action')"), r)
  | Some (Builtin _) => (Raise (TypeError "uiStep.input is not a function"), r)
  | Some (Declared step) =>
      if isActionStep step
      then (Ok (Div (if busy r then Some "Processing..." else None)), r)
      else
        match input step resolvedEventChannels (data (state r)) with
        | (Ok i, d') =>
            match view step with
            | Some component => (Ok (ViewComponent component i), mutated d' r)
            | None => (Raise (Error "Element type is invalid"), mutated d' r)
            end
        | (Raise e, d') => (Raise e, mutated d' r)
        end
  end.

(** [useState] initial values of a new runner. *)
Definition mount (flow : FlowDefinition) (initialData : gmap string V) : Runner :=
  {| state := {| currentStep := start flow; data := spread initialData |};
     busy := false; tick := 0; isMounted := true; renders := 0; console := [] |}.

(** The nothing-rendered element. *)
Definition rendersNothing (el : Element) : Prop := el = Div None.

End Flow.
Arguments Callback V X : clear implicits.
Arguments FlowStep V : clear implicits.
Arguments FlowDefinition V : clear implicits.
Arguments DefineFlowOptions V : clear implicits.
Arguments ChannelTransitions V : clear implicits.
Arguments ChannelTransitionContext V : clear implicits.
Arguments ChannelTransitionResolver V : clear implicits.
Arguments RunnerState V : clear implicits.
Arguments Runner V : clear implicits.
Arguments Closure V : clear implicits.
Arguments Element V : clear implicits.

(** ** The oldest snapshot of [defineFlow] *)

Module Snapshot0.
Section Defs.
Context {V : Type}.

Record FlowDefinition : Type := mkFlowDefinition {
  steps : gmap string (FlowStep V);
  start : string;
}.

Definition defineFlow (steps : gmap string (FlowStep V)) (options_start : string)
    : Result FlowDefinition :=
  if negb (truthy options_start)
     || negb (bool_decide (is_Some (readProperty steps options_start)))
  then Raise (Error ("defineFlow: 'start' must be provided and exist in steps. Got '"
                     +:+ options_start +:+ "'."))
  else Ok {| steps := steps; start := options_start |}.

End Defs.
End Snapshot0.

(** ** What the newest snapshot renders *)

Module Snapshot2.
Section Defs.
Context {V : Type}.

(** The two data objects of a runner, [domain] and [internal]. *)
Record FlowData : Type := mkFlowData {
  domain : gmap string V;
  internal : gmap string V;
}.

(** A user callback working on both data objects. *)
Definition Callback (X : Type) : Type := FlowData → Result X * FlowData.

(** [ActionRenderConfig]: [{ mode: "preserve-previous" }] or
    [{ mode: "fallback", view }]. *)
Inductive ActionRenderConfig : Type :=
  | PreservePrevious
  | Fallback (view : ViewId).

Record FlowStep : Type := mkFlowStep {
  input : option EventChannels → Callback V;
  view : option ViewId;
  action : option (V → option EventChannels → Callback V);
  onOutput : V → option EventChannels → Callback (option string);
  actionRender : option ActionRenderConfig;
}.

(** What the component body reads and writes while it produces the
    element. *)
Record Runner : Type := mkRunner {
  currentStep : string;
  data : FlowData;
  busy : bool;
  previousUiStepRef : option string;
}.

(** The output handle a view is given: the one that runs [onOutput], or
    the one of a preserved view, which does nothing. *)
Inductive OutputHandle : Type := Emitting | Inert.

(** What the component returns; [Null] is [null]: nothing is rendered. *)
Inductive Element : Type :=
  | Null
  | ViewComponent (component : ViewId) (i : V) (output : OutputHandle)
  | FallbackView (component : ViewId) (i : V) (d : FlowData)
      (events : option EventChannels) (step : string) (busy : bool).

Definition isActionStep (step : FlowStep) : bool :=
  bool_decide (is_Some (action step)) && negb (bool_decide (is_Some (view step))).

Definition mutated (d : FlowData) (r : Runner) : Runner :=
  {| currentStep := currentStep r; data := d; busy := busy r;
     previousUiStepRef := previousUiStepRef r |}.

(** [if (!isActionStep && step && (step as any).view)
     previousUiStepRef.current = currentStep] *)
Definition rememberUiStep (step : FlowStep) (r : Runner) : Runner :=
  if negb (isActionStep step) && bool_decide (is_Some (view step))
  then {| currentStep := currentStep r; data := data r; busy := busy r;
          previousUiStepRef := Some (currentStep r) |}
  else r.

(** The UI step whose view [preserve-previous] keeps on the screen:
    [previousUiStepRef.current], looked up again, if it still carries a
    view. *)
Definition previousUiStep (steps : gmap string FlowStep) (r : Runner)
    : option (FlowStep * ViewId) :=
  match previousUiStepRef r with
  | None => None
  | Some name =>
      if truthy name then
        match readProperty steps name with
        | Some (Declared previousStep) =>
            match view previousStep with
            | Some component => Some (previousStep, component)
            | None => None
            end
        | _ => None
        end
      else None
  end.

(** Calling [input] of [step] and rendering [element] of its result. *)
Definition withInput (step : FlowStep) (events : option EventChannels)
    (element : V → Element) (r : Runner) : Result Element * Runner :=
  match input step events (data r) with
  | (Ok i, d') => (Ok (element i), mutated d' r)
  | (Raise e, d') => (Raise e, mutated d' r)
  end.

(** What an action step renders while the runner is on it: the view of the
    previous UI step under [preserve-previous] when there is one, the
    fallback view under [fallback], and otherwise nothing. *)
Definition renderActionStep (steps : gmap string FlowStep)
    (events : option EventChannels) (actionStep : FlowStep) (r : Runner)
    : Result Element * Runner :=
  match actionRender actionStep, previousUiStep steps r with
  | Some PreservePrevious, Some (uiStep, component) =>
      withInput uiStep events (λ i, ViewComponent component i Inert) r
  | Some (Fallback fallbackView), _ =>
      match input actionStep events (data r) with
      | (Ok i, d') =>
          (Ok (FallbackView fallbackView i d' events (currentStep r) (busy r)),
           mutated d' r)
      | (Raise e, d') => (Raise e, mutated d' r)
      end
  | _, _ => (Ok Null, r)
  end.

(** The part of the component body that produces the element. *)
Definition render (steps : gmap string FlowStep) (events : option EventChannels)
    (r : Runner) : Result Element * Runner :=
  match readProperty steps (currentStep r) with
  | None =>
      (Raise (TypeError "Cannot read properties of undefined (reading 'action')"), r)
  | Some (Builtin _) => (Raise (TypeError "uiStep.input is not a function"), r)
  | Some (Declared step) =>
      let r1 := rememberUiStep step r in
      if isActionStep step then renderActionStep steps events step r1
      else
        match input step events (data r1) with
        | (Ok i, d') =>
            match view step with
            | Some component =>
                (Ok (ViewComponent component i Emitting), mutated d' r1)
            | None => (Raise (Error "Element type is invalid"), mutated d' r1)
            end
        | (Raise e, d') => (Raise e, mutated d' r1)
        end
  end.

End Defs.
Arguments FlowData V : clear implicits.
Arguments FlowStep V : clear implicits.
Arguments Runner V : clear implicits.
Arguments Element V : clear implicits.
End Snapshot2.

(** ** The statements of the specification that the code is checked against *)

Section Specified.
Context {V T : Type}.

(** [next] names a step of the flow. *)
Definition namesStep (flow : FlowDefinition V) (next : option string) : Prop :=
  ∃ name, next = Some name ∧ is_Some (steps flow !! name).

(** Transition validity as the specification has it: the step pointer moves
    to [next] exactly when [next] is a key of [steps], and in both cases the
    runner re-renders with the data it has. *)
Definition transitionAsSpecified (flow : FlowDefinition V) (next : option string)
    (r : Runner V) : Prop :=
  let r' := applyTransition flow next r in
  (namesStep flow next → Some (currentStep (state r')) = next)
  ∧ (¬ namesStep flow next → currentStep (state r') = currentStep (state r))
  ∧ renders r' = S (renders r)
  ∧ data (state r') = data (state r).

(** [emit] shielding its caller and the other listeners from a listener
    that throws. *)
Definition emitShieldsListeners (body : Listener → list (Op T)) (update : Updater T)
    (w : World T) : Prop :=
  (∀ fuel e w', emit body fuel update w ≠ Thrown e w')
  ∧ (∃ fuel w', emit body fuel update w = Returned w'
       ∧ ∀ l, l ∈ Set_values (listeners (chan w)) → l ∈ calls w').

(** Snapshot semantics: the listeners called by one [emit] are those
    registered when it starts. *)
Definition notifiesSnapshot (body : Listener → list (Op T)) (update : Updater T)
    (w : World T) : Prop :=
  ∀ fuel w', emit body fuel update w = Returned w' →
    ∃ notified, calls w' = calls w ++ notified
      ∧ ∀ l, l ∈ notified ↔ l ∈ Set_values (listeners (chan w)).

(** [emit] as the specification has it: it returns, with the update
    committed and every listener that was registered notified. *)
Definition emitAsSpecified (body : Listener → list (Op T)) (update : Updater T)
    (w : World T) : Prop :=
  ∃ fuel w', emit body fuel update w = Returned w'
    ∧ value (chan w') = applyUpdate update (value (chan w))
    ∧ ∀ l, l ∈ Set_values (listeners (chan w)) → l ∈ calls w'.


End Specified.



(** ** Concrete flows, runners and channels *)

Definition displayStep : FlowStep nat :=
  {| input := λ _ d, (Ok 0, d);
     view := Some "DisplayView";
     action := None;
     onOutput := λ _ _ d, (Ok None, d) |}.

(** An action step that stores its output under [value] and goes to
    [done]. *)
Definition savingStep : FlowStep nat :=
  {| input := λ _ d, (Ok (default 0 (d !! "value")), d);
     view := None;
     action := Some (λ i _ d, (Ok (S i), <["value" := S i]> d));
     onOutput := λ _ _ d, (Ok (Some "done"), d) |}.

(** An action step whose task fails after it has touched the data. *)
Definition failingStep : FlowStep nat :=
  {| input := λ _ d, (Ok 0, d);
     view := None;
     action := Some (λ _ _ d, (Raise (Error "request failed"), <["tried" := 1]> d));
     onOutput := λ _ _ d, (Ok (Some "done"), d) |}.

Definition savingFlow : FlowDefinition nat :=
  {| steps := {[ "saving" := savingStep; "done" := displayStep ]};
     start := "saving";
     channelTransitions := None |}.

Definition failingFlow : FlowDefinition nat :=
  {| steps := {[ "load" := failingStep; "done" := displayStep ]};
     start := "load";
     channelTransitions := None |}.


(** The runner of [savingFlow] while its action is in flight. *)
Definition savingRunner : Runner nat := setBusy true (mount savingFlow ∅).

(** Listener 1 throws, every other listener only observes. *)
Definition throwingFirst : Listener → list (Op nat) :=
  λ l, if decide (l = 1) then [DoThrow (Error "listener failed")] else [].

(** Listener 1 subscribes listener 2 when it is called. *)
Definition subscribingFirst : Listener → list (Op nat) :=
  λ l, if decide (l = 1) then [CallSubscribe 2] else [].

(** Listener 1 unsubscribes listener 2 when it is called. *)
Definition unsubscribingFirst : Listener → list (Op nat) :=
  λ l, if decide (l = 1) then [CallUnsubscribe 2] else [].

Definition observers : Listener → list (Op nat) := λ _, [].

Definition worldOf (v : nat) (ls : SetData Listener) : World nat :=
  {| chan := {| value := v; listeners := ls |}; calls := [] |}.

Definition mapA : TypedChannels :=
  {| typed_ident := 1; channels := {[ "counter" := 10 ]} |}.

(** A new map object for the same key with another channel instance. *)
Definition mapB : TypedChannels :=
  {| typed_ident := 2; channels := {[ "counter" := 20 ]} |}.

(** A new map object with the bindings of [mapA]. *)
Definition mapA' : TypedChannels :=
  {| typed_ident := 3; channels := {[ "counter" := 10 ]} |}.

Definition mapTwo : TypedChannels :=
  {| typed_ident := 4; channels := {[ "counter" := 10; "refresh" := 11 ]} |}.

(** A map one of whose keys is the name of a member of [Object.prototype]. *)
Definition mapWithConstructor : TypedChannels :=
  {| typed_ident := 6; channels := {[ "counter" := 10; "constructor" := 30 ]} |}.


Definition unbound : Binding := {| resolvedChannelsRef := None; nextObject := 100 |}.

Definition noSubscriptions : SubscriptionEffect :=
  {| lastDeps := None; unsubs := []; channelCalls := []; thrown := None |}.

(** A runner whose ref holds [mapA], and its effect slot after the commit
    that subscribed to it. *)
Definition boundToA : Binding :=
  {| resolvedChannelsRef := Some (asEventChannels mapA); nextObject := 100 |}.

Definition subscribedToA : SubscriptionEffect :=
  {| lastDeps := Some (None, Some (asEventChannels mapA));
     unsubs := channelEntries mapA;
     channelCalls := uncurry SubscribeCall <$> channelEntries mapA;
     thrown := None |}.

Definition boundToTwo : Binding :=
  {| resolvedChannelsRef := Some (asEventChannels mapTwo); nextObject := 100 |}.


Definition startOptions (name : string) : DefineFlowOptions nat :=
  {| options_start := name; options_channelTransitions := None |}.

(** ** Sequences of channel operations *)

Section ChannelRuns.
Context {T : Type}.

(** One [emit] after the other, as long as each returns. *)
Fixpoint emitAll (body : Listener → list (Op T)) (fuel : nat)
    (updates : list (Updater T)) (w : World T) : Outcome (World T) :=
  match updates with
  | [] => Returned w
  | update :: rest =>
      match emit body fuel update w with
      | Returned w' => emitAll body fuel rest w'
      | abrupt => abrupt
      end
  end.

(** The value after the updates, each applied to the value before it. *)
Definition applyUpdates (updates : list (Updater T)) (v : T) : T :=
  foldl (λ v update, applyUpdate update v) v updates.

(** [createTrackedChannel] of the test helpers: a channel that counts the
    calls of [subscribe] and the unsubscribe calls that removed a
    listener. *)
Record TrackedChannel : Type := mkTrackedChannel {
  channel : FlowChannel T;
  subscribeCalls : nat;
  unsubscribeCalls : nat;
}.

Definition createTrackedChannel (initial : T) : TrackedChannel :=
  {| channel := createFlowChannel initial; subscribeCalls := 0; unsubscribeCalls := 0 |}.

Definition activeSubscribers (t : TrackedChannel) : nat :=
  Set_size (listeners (channel t)).

Definition trackedSubscribe (listener : Listener) (t : TrackedChannel) : TrackedChannel :=
  {| channel := subscribe listener (channel t);
     subscribeCalls := S (subscribeCalls t);
     unsubscribeCalls := unsubscribeCalls t |}.

(** The function [subscribe] returned: [if (listeners.delete(listener))
    stats.unsubscribeCalls += 1]. *)
Definition trackedUnsubscribe (listener : Listener) (t : TrackedChannel) : TrackedChannel :=
  if Set_has listener (listeners (channel t))
  then {| channel := unsubscribe listener (channel t);
          subscribeCalls := subscribeCalls t;
          unsubscribeCalls := S (unsubscribeCalls t) |}
  else t.

Inductive TrackedCall : Type :=
  | Subscribes (l : Listener)
  | Unsubscribes (l : Listener).

Definition trackedCall (t : TrackedChannel) (c : TrackedCall) : TrackedChannel :=
  match c with
  | Subscribes l => trackedSubscribe l t
  | Unsubscribes l => trackedUnsubscribe l t
  end.

End ChannelRuns.
Arguments TrackedChannel T : clear implicits.

(** ** Sequences of renders, and unmounting *)

(** The props that matter to channels in one render: the strategy, the
    identity of [flow.channelTransitions], the [eventChannels] map. *)
Record ChannelProps : Type := mkChannelProps {
  props_strategy : Strategy;
  props_channelTransitionsId : option Ident;
  props_eventChannels : option TypedChannels;
}.

(** One render after the other; once the effect has thrown the component
    is gone and renders no more. *)
Definition renderAllChannels (renders : list ChannelProps)
    (s : Binding * SubscriptionEffect) : Binding * SubscriptionEffect :=
  foldl (λ s p,
    match thrown s.2 with
    | Some _ => s
    | None => (renderChannels (props_strategy p) (props_channelTransitionsId p)
                 (props_eventChannels p) s).2
    end) s renders.

(** The props of a render under which the effect cannot meet a member of
    [Object.prototype]: the strategy is [replace], or no key of the map is
    the name of one. *)
Definition plainProps (p : ChannelProps) : Prop :=
  props_strategy p = replace ∨ from_option plainKeys True (props_eventChannels p).

(** The cleanup of the subscription effect when the component unmounts:
    [unsubs.forEach((u) => u())]. *)
Definition unmountChannels (e : SubscriptionEffect) : SubscriptionEffect :=
  {| lastDeps := lastDeps e; unsubs := [];
     channelCalls := channelCalls e ++ (uncurry UnsubscribeCall <$> unsubs e);
     thrown := thrown e |}.

Definition countIf {A : Type} (p : A → bool) (l : list A) : nat :=
  length (List.filter p l).

Definition isSubscribeOn (ch : ChanRef) (c : SubscriptionCall) : bool :=
  match c with
  | SubscribeCall _ ch' => bool_decide (ch' = ch)
  | UnsubscribeCall _ _ => false
  end.

Definition isUnsubscribeOn (ch : ChanRef) (c : SubscriptionCall) : bool :=
  match c with
  | SubscribeCall _ _ => false
  | UnsubscribeCall _ ch' => bool_decide (ch' = ch)
  end.

(** How many subscriptions to [ch] the cleanup of the effect holds. *)
Definition activeOn (ch : ChanRef) (e : SubscriptionEffect) : nat :=
  countIf (λ entry, bool_decide (entry.2 = ch)) (unsubs e).

(** The map the effect last ran with. *)
Definition lastResolved (e : SubscriptionEffect) : option EventChannels :=
  lastDeps e ≫= snd.

Definition entriesOf (resolved : option EventChannels) : list (string * ChanRef) :=
  from_option channelEntries [] resolved.

(** The effect has not thrown, its cleanup undoes the subscriptions of its
    last run, and every [subscribe] call so far is either undone or held by
    the cleanup. *)
Definition settled (e : SubscriptionEffect) : Prop :=
  thrown e = None
  ∧ unsubs e = entriesOf (lastResolved e)
  ∧ ∀ ch, countIf (isSubscribeOn ch) (channelCalls e)
          = countIf (isUnsubscribeOn ch) (channelCalls e) + activeOn ch e.

(** ** Channel binding in the oldest snapshot *)

Module Snapshot0Runner.

(** [eventChannelsRef.current ??= props.eventChannels] *)
Definition bindEventChannels (eventChannels : option TypedChannels)
    (eventChannelsRef : option TypedChannels) : option TypedChannels :=
  match eventChannelsRef with
  | Some kept => Some kept
  | None => eventChannels
  end.

(** The slot of the effect with no dependencies: whether it has run, the
    channels its cleanup unsubscribes from, the channels subscribed to so
    far. *)
Record MountEffect : Type := mkMountEffect {
  committed : bool;
  cleanup : list ChanRef;
  subscribed : list ChanRef;
}.

(** [useEffect(() => { if (!eventChannels) return; ... }, [])]: runs after the
    first render only, subscribing to [Object.values(eventChannels)]. *)
Definition subscriptionEffect (eventChannels : option TypedChannels)
    (e : MountEffect) : MountEffect :=
  if committed e then e
  else
    match eventChannels with
    | None => {| committed := true; cleanup := []; subscribed := subscribed e |}
    | Some r =>
        let subscribedNow := (map_to_list (channels r)).*2 in
        {| committed := true; cleanup := subscribedNow;
           subscribed := subscribed e ++ subscribedNow |}
    end.

Definition renderChannels (eventChannels : option TypedChannels)
    (s : option TypedChannels * MountEffect) : option TypedChannels * MountEffect :=
  let ref := bindEventChannels eventChannels s.1 in
  (ref, subscriptionEffect ref s.2).

Definition renderAllChannels (renders : list (option TypedChannels))
    (s : option TypedChannels * MountEffect) : option TypedChannels * MountEffect :=
  foldl (λ s eventChannels, renderChannels eventChannels s) s renders.

Definition fresh : option TypedChannels * MountEffect :=
  (None, {| committed := false; cleanup := []; subscribed := [] |}).

End Snapshot0Runner.

(** ** What happens to a runner *)

Section Runs.
Context {V : Type}.

(** The cleanup of the mount effect: [isMountedRef.current = false]. *)
Definition unmount (r : Runner V) : Runner V :=
  {| state := state r; busy := busy r; tick := tick r; isMounted := false;
     renders := renders r; console := console r |}.

(** What can happen to a runner, each with the resolved channels of the
    render it belongs to: a view emits an output through the handle some
    render gave it (there is a view, and with it an output handle, only when
    the step of that render carries one), a subscribed channel notifies its
    listener, which is a closure of some render, the effect of the current
    step runs, the component body runs, the component unmounts. *)
Inductive Trigger : Type :=
  | ViewEmits (output : V) (closure : Closure V)
  | ChannelEmits (channelKey : string) (closure : Closure V)
  | ActionEffectRuns
  | Renders
  | Unmounts.

Definition handle (flow : FlowDefinition V) (resolvedEventChannels : option EventChannels)
    (t : Trigger) (r : Runner V) : Runner V :=
  match t with
  | ViewEmits output closure =>
      match readProperty (steps flow) (currentStep (capturedState closure r)) with
      | Some (Declared uiStep) =>
          match view uiStep with
          | Some _ =>
              (outputHandle_emit flow uiStep resolvedEventChannels closure output r).2
          | None => r
          end
      | _ => r
      end
  | ChannelEmits channelKey closure =>
      runChannelTransition flow resolvedEventChannels channelKey closure r
  | ActionEffectRuns => (actionEffect flow resolvedEventChannels r).2
  | Renders => (render flow resolvedEventChannels r).2
  | Unmounts => unmount r
  end.

Definition runTriggers (flow : FlowDefinition V)
    (triggers : list (option EventChannels * Trigger)) (r : Runner V) : Runner V :=
  foldl (λ r t, handle flow t.1 t.2 r) r triggers.

End Runs.
Arguments Trigger V : clear implicits.

(** ** More concrete flows and channels *)

(** Listener 1 unsubscribes and subscribes itself again when it is called. *)
Definition resubscribingFirst : Listener → list (Op nat) :=
  λ l, if decide (l = 1) then [CallUnsubscribe 1; CallSubscribe 1] else [].

(** A new map object that binds [refresh] to another channel. *)
Definition mapTwoB : TypedChannels :=
  {| typed_ident := 5; channels := {[ "counter" := 10; "refresh" := 99 ]} |}.

(** A step that carries both a view and an action. *)
Definition hybridStep : FlowStep nat :=
  {| input := λ _ d, (Ok 7, d);
     view := Some "HybridView";
     action := Some (λ i _ d, (Ok i, <["ran" := 1]> d));
     onOutput := λ _ _ d, (Ok None, d) |}.

Definition hybridFlow : FlowDefinition nat :=
  {| steps := {[ "both" := hybridStep ]};
     start := "both";
     channelTransitions := None |}.

(** A flow whose [refresh] channel moves it to [refreshed], and whose
    [broken] channel has a resolver that throws. *)
Definition refreshFlow : FlowDefinition nat :=
  {| steps := {[ "idle" := displayStep; "refreshed" := displayStep ]};
     start := "idle";
     channelTransitions :=
       Some {| transitionsId := 7;
               resolvers :=
                 {[ "refresh" := λ context, (Ok (Some "refreshed"), ctx_data context);
                    "broken" := λ context,
                      (Raise (Error "resolver failed"), ctx_data context);
                    "whenIdle" := λ context,
                      (Ok (if decide (ctx_currentStep context = "idle")
                           then Some "refreshed" else None),
                       <["seen" := 1]> (ctx_data context)) ]} |} |}.

(** A flow of the newest snapshot: an action step that declares nothing
    about rendering, one that keeps the previous view, and a UI step. *)
Definition plainSavingStep : Snapshot2.FlowStep nat :=
  {| Snapshot2.input := λ _ d, (Ok 0, d);
     Snapshot2.view := None;
     Snapshot2.action := Some (λ i _ d, (Ok (S i), d));
     Snapshot2.onOutput := λ _ _ d, (Ok (Some "done"), d);
     Snapshot2.actionRender := None |}.

Definition preservingStep : Snapshot2.FlowStep nat :=
  {| Snapshot2.input := λ _ d, (Ok 0, d);
     Snapshot2.view := None;
     Snapshot2.action := Some (λ i _ d, (Ok (S i), d));
     Snapshot2.onOutput := λ _ _ d, (Ok (Some "done"), d);
     Snapshot2.actionRender := Some Snapshot2.PreservePrevious |}.

Definition formStep : Snapshot2.FlowStep nat :=
  {| Snapshot2.input := λ _ d, (Ok 5, d);
     Snapshot2.view := Some "FormView";
     Snapshot2.action := None;
     Snapshot2.onOutput := λ _ _ d, (Ok (Some "saving"), d);
     Snapshot2.actionRender := None |}.

Definition policySteps : gmap string (Snapshot2.FlowStep nat) :=
  {[ "form" := formStep; "saving" := plainSavingStep; "keeping" := preservingStep ]}.

(** The runner of the newest snapshot on [step], busy, after the form was
    on the screen. *)
Definition busyOn (step : string) : Snapshot2.Runner nat :=
  {| Snapshot2.currentStep := step;
     Snapshot2.data := {| Snapshot2.domain := ∅; Snapshot2.internal := ∅ |};
     Snapshot2.busy := true;
     Snapshot2.previousUiStepRef := Some "form" |}.


(** * Properties *)

(** ** The entry list of a [Set] *)

Section JsSetFacts.
Context {A : Type} `{EqDecision A}.
Implicit Types (s : SetData A) (x : A).

Lemma Set_values_app s1 s2 : Set_values (s1 ++ s2) = Set_values s1 ++ Set_values s2.
Proof. apply omap_app. Qed.

Lemma Set_add_new x s : Set_has x s = false → Set_add x s = s ++ [Some x].
Proof. unfold Set_add. by intros ->. Qed.

Lemma Set_add_present x s : Set_has x s = true → Set_add x s = s.
Proof. unfold Set_add. by intros ->. Qed.

Lemma Set_delete_absent x s : Some x ∉ s → Set_delete x s = s.
Proof.
  unfold Set_delete. induction s as [|e s IH]; [done|].
  intros Hnot. apply not_elem_of_cons in Hnot as [Hne Hnot].
  cbn. rewrite decide_False by congruence. f_equal. by apply IH.
Qed.

Lemma Set_delete_app x s1 s2 :
  Set_delete x (s1 ++ s2) = Set_delete x s1 ++ Set_delete x s2.
Proof. apply fmap_app. Qed.

Lemma Set_delete_here x s : Set_delete x (Some x :: s) = None :: Set_delete x s.
Proof. unfold Set_delete. cbn. by rewrite decide_True. Qed.

Lemma Set_delete_other x e s :
  e ≠ Some x → Set_delete x (e :: s) = e :: Set_delete x s.
Proof. intros. unfold Set_delete. cbn. by rewrite decide_False. Qed.

(** After [delete] the value is gone, whatever the set held. *)
Lemma Set_delete_gone x s : Set_has x (Set_delete x s) = false.
Proof.
  unfold Set_has, Set_delete. apply bool_decide_eq_false.
  intros Hin. apply list_elem_of_fmap in Hin as (e & Heq & _).
  destruct (decide (e = Some x)); congruence.
Qed.

Lemma Set_forEach_past_end {W : Type} fuel (entries : W → SetData A)
    (callbackfn : A → W → Outcome W) index (w : W) :
  entries w !! index = None →
  Set_forEach (S fuel) entries callbackfn index w = Returned w.
Proof. cbn. by intros ->. Qed.

End JsSetFacts.

(** ** Channels *)

Section ChannelFacts.
Context {T : Type}.
Implicit Types (w : World T) (s : SetData Listener) (l : Listener).
Implicit Types (body : Listener → list (Op T)).

Lemma quiet_app body s1 s2 : quiet body (s1 ++ s2) = quiet body s1 && quiet body s2.
Proof. unfold quiet. by rewrite Set_values_app, forallb_app. Qed.

Lemma quiet_cons_Some body l s :
  quiet body (Some l :: s) = true → body l = [] ∧ quiet body s = true.
Proof.
  unfold quiet. cbn. intros [Hl Hs]%andb_prop.
  by apply bool_decide_eq_true in Hl.
Qed.

Lemma quiet_cons_None body s : quiet body (None :: s) = quiet body s.
Proof. done. Qed.

(** A listener that only observes is recorded as called and nothing else
    happens. *)
Lemma callListener_quiet body emit' l w :
  body l = [] → callListener body emit' l w = Returned (called l w).
Proof. unfold callListener. by intros ->. Qed.

(** [forEach] walks through a stretch of observing listeners, calling each
    live one in insertion order. *)
Lemma Set_forEach_quiet body emit' seg : ∀ done rest w k,
  listeners (chan w) = done ++ seg ++ rest →
  quiet body seg = true →
  Set_forEach (length seg + k) (λ w, listeners (chan w))
    (callListener body emit') (length done) w
  = Set_forEach k (λ w, listeners (chan w))
      (callListener body emit') (length done + length seg)
      {| chan := chan w; calls := calls w ++ Set_values seg |}.
Proof.
  induction seg as [|[l|] seg IH]; intros done rest w k Hls Hq.
  - cbn. rewrite Nat.add_0_r, app_nil_r. by destruct w.
  - apply quiet_cons_Some in Hq as [Hl Hq].
    rewrite <-app_comm_cons in Hls.
    cbn [length Nat.add Set_forEach].
    rewrite Hls, list_lookup_middle by done.
    rewrite callListener_quiet by done.
    specialize (IH (done ++ [Some l]) rest (called l w) k).
    rewrite length_app in IH. cbn [length] in IH.
    replace (length done + 1) with (S (length done)) in IH by lia.
    rewrite IH; [|by cbn; rewrite Hls, <-app_assoc|done].
    cbn. rewrite <-app_assoc. do 2 f_equal. lia.
  - rewrite quiet_cons_None in Hq.
    rewrite <-app_comm_cons in Hls.
    cbn [length Nat.add Set_forEach].
    rewrite Hls, list_lookup_middle by done.
    specialize (IH (done ++ [None]) rest w k).
    rewrite length_app in IH. cbn [length] in IH.
    replace (length done + 1) with (S (length done)) in IH by lia.
    rewrite IH; [|by rewrite Hls, <-app_assoc|done].
    cbn. do 2 f_equal. lia.
Qed.

Lemma fuel_split (fuel n : nat) : n + 1 ≤ fuel → ∃ k, fuel = n + S k.
Proof. intros. exists (fuel - n - 1). lia. Qed.

(** C7, as the code has it.  For every channel, every update and every set
    of registered listeners that only observe (they do not throw, and do
    not subscribe, unsubscribe or emit while they are notified),
    [emit(update)] with enough steps returns
    normally, having committed [update(prev)] for a callable [update] and
    [update] itself otherwise, and having called every registered listener
    once, in insertion order, before it returns; [get()] then reads the
    committed value. *)
Theorem emit_commits_then_notifies body (update : Updater T) w fuel :
  quiet body (listeners (chan w)) = true →
  length (listeners (chan w)) + 2 ≤ fuel →
  let prev := value (chan w) in
  let next := match update with Callable f => f prev | Direct v => v end in
  ∃ w', emit body fuel update w = Returned w'
    ∧ value (chan w') = next
    ∧ listeners (chan w') = listeners (chan w)
    ∧ calls w' = calls w ++ Set_values (listeners (chan w))
    ∧ get (chan w') = next.
Proof.
  intros Hq Hfuel prev next.
  destruct fuel as [|fuel]; [lia|].
  destruct (fuel_split fuel (length (listeners (chan w)))) as [k ->]; [lia|].
  cbn [emit].
  set (w1 := commit _ w).
  pose proof (Set_forEach_quiet body (emit body (length (listeners (chan w)) + S k))
                (listeners (chan w)) [] [] w1 (S k)) as Hwalk.
  cbn [length Nat.add app] in Hwalk.
  rewrite Hwalk; [|by rewrite app_nil_r|done].
  rewrite Set_forEach_past_end by (cbn; by apply lookup_ge_None_2).
  eexists. split; [done|]. cbn.
  repeat split; by destruct update.
Qed.

(** C8, as the code has it.  [emit] does not catch what a listener throws:
    when the listeners before [l] only observe and [l] throws, the new
    value is already committed, the listeners up to and including [l] have
    been called, those after [l] are not called, and the exception leaves
    [emit]. *)
Theorem emit_propagates_listener_exception body (update : Updater T) w
    pre l post e rest fuel :
  listeners (chan w) = pre ++ Some l :: post →
  quiet body pre = true →
  body l = DoThrow e :: rest →
  length pre + 2 ≤ fuel →
  emit body fuel update w
  = Thrown e {| chan := {| value := applyUpdate update (value (chan w));
                           listeners := listeners (chan w) |};
                calls := calls w ++ Set_values pre ++ [l] |}.
Proof.
  intros Hls Hq Hl Hfuel.
  destruct fuel as [|fuel]; [lia|].
  destruct (fuel_split fuel (length pre)) as [k ->]; [lia|].
  cbn [emit].
  set (w1 := commit _ w).
  rewrite (Set_forEach_quiet body _ pre [] (Some l :: post) w1 (S k));
    [|by cbn; rewrite Hls|done].
  assert (listeners (chan w1) = pre ++ Some l :: post) as Hw1 by done.
  cbn [length Nat.add app Set_forEach chan listeners].
  rewrite Hw1, list_lookup_middle by done.
  unfold callListener, called. rewrite Hl. cbn.
  by rewrite <-app_assoc.
Qed.

Lemma Set_forEach_observers body emit' done seg rest w fuel k index :
  listeners (chan w) = done ++ seg ++ rest →
  quiet body seg = true →
  index = length done →
  fuel = length seg + k →
  Set_forEach fuel (λ w, listeners (chan w)) (callListener body emit') index w
  = Set_forEach k (λ w, listeners (chan w))
      (callListener body emit') (index + length seg)
      {| chan := chan w; calls := calls w ++ Set_values seg |}.
Proof. intros Hls Hq -> ->. by eapply Set_forEach_quiet. Qed.

Lemma Set_forEach_call body emit' l w k index :
  listeners (chan w) !! index = Some (Some l) →
  Set_forEach (S k) (λ w, listeners (chan w)) (callListener body emit') index w
  = match runOps emit' (body l) (called l w) with
    | Returned w' =>
        Set_forEach k (λ w, listeners (chan w)) (callListener body emit')
          (S index) w'
    | abrupt => abrupt
    end.
Proof. cbn. by intros ->. Qed.

(** C9, as the code has it.  [emit] walks the live listener set, not a
    snapshot: (1) a listener that a callback subscribes during the pass is
    appended to the set and is called later in the same pass; (2) a listener
    that a callback unsubscribes before its turn is not called in that
    pass.  The other listeners only observe. *)
Theorem emit_walks_live_listeners body (update : Updater T) w :
  let next := applyUpdate update (value (chan w)) in
  (∀ pre a post b fuel,
      listeners (chan w) = pre ++ Some a :: post →
      quiet body pre = true → quiet body post = true →
      body a = [CallSubscribe b] → body b = [] →
      Set_has b (listeners (chan w)) = false →
      length (listeners (chan w)) + 3 ≤ fuel →
      emit body fuel update w
      = Returned {| chan := {| value := next;
                               listeners := listeners (chan w) ++ [Some b] |};
                    calls := calls w ++ Set_values pre ++ [a]
                             ++ Set_values post ++ [b] |})
  ∧ (∀ pre a mid b post fuel,
      listeners (chan w) = pre ++ Some a :: mid ++ Some b :: post →
      quiet body pre = true → quiet body mid = true → quiet body post = true →
      body a = [CallUnsubscribe b] →
      a ≠ b → Some b ∉ pre → Some b ∉ mid → Some b ∉ post →
      length (listeners (chan w)) + 2 ≤ fuel →
      emit body fuel update w
      = Returned {| chan := {| value := next;
                               listeners := pre ++ Some a :: mid ++ None :: post |};
                    calls := calls w ++ Set_values pre ++ [a]
                             ++ Set_values mid ++ Set_values post |}).
Proof.
  intros next. split.
  - intros pre a post b fuel Hls Hpre Hpost Ha Hb Hnew Hfuel.
    rewrite Hls, !length_app in Hfuel. cbn [length] in Hfuel.
    destruct fuel as [|fuel]; [lia|].
    destruct (fuel_split fuel (length pre)) as [k1 ->]; [lia|].
    destruct (fuel_split k1 (length post)) as [k2 ->]; [lia|].
    destruct k2 as [|k]; [lia|].
    cbn [emit]. set (emit' := emit body _). set (w1 := commit _ w).
    erewrite (Set_forEach_observers body emit' [] pre (Some a :: post) w1);
      [|by cbn; rewrite Hls|done|done|done].
    erewrite Set_forEach_call;
      [|by cbn; rewrite Hls; apply list_lookup_middle].
    rewrite Ha. cbn [runOps].
    set (w2 := onChannel (subscribe b) _).
    assert (chan w2 = {| value := next;
                         listeners := (pre ++ [Some a]) ++ post ++ [Some b] |})
      as Hchan.
    { cbn -[Set_add subscribe]. unfold subscribe. cbn -[Set_add].
      rewrite Set_add_new by done.
      by rewrite Hls, <-!app_assoc. }
    assert (calls w2 = calls w ++ Set_values pre ++ [a]) as Hcalls.
    { cbn. by rewrite <-app_assoc. }
    clearbody w2.
    erewrite (Set_forEach_observers body emit' (pre ++ [Some a]) post [Some b] w2);
      [|by rewrite Hchan|done|by rewrite length_app; cbn; lia|done].
    erewrite (Set_forEach_observers body emit' ((pre ++ [Some a]) ++ post)
                [Some b] [] _ (S (S k)) (S k));
      [|by cbn; rewrite Hchan, <-!app_assoc
       |by unfold quiet; cbn; rewrite Hb
       |by rewrite !length_app; cbn; lia|done].
    rewrite Set_forEach_past_end.
    + cbn. rewrite Hchan, Hcalls, Hls. cbn.
      by rewrite <-!app_assoc.
    + cbn. rewrite Hchan. cbn. apply lookup_ge_None_2.
      rewrite !length_app. cbn. lia.
  - intros pre a mid b post fuel Hls Hpre Hmid Hpost Ha Hab Hbpre Hbmid Hbpost Hfuel.
    rewrite Hls, !length_app in Hfuel. cbn [length] in Hfuel.
    rewrite length_app in Hfuel. cbn [length] in Hfuel.
    destruct fuel as [|fuel]; [lia|].
    destruct (fuel_split fuel (length pre)) as [k1 ->]; [lia|].
    destruct (fuel_split k1 (length (mid ++ None :: post))) as [k ->].
    { rewrite length_app. cbn. lia. }
    cbn [emit]. set (emit' := emit body _). set (w1 := commit _ w).
    erewrite (Set_forEach_observers body emit' [] pre _ w1);
      [|by cbn; rewrite Hls|done|done|done].
    erewrite Set_forEach_call;
      [|by cbn; rewrite Hls; apply list_lookup_middle].
    rewrite Ha. cbn [runOps].
    set (w2 := onChannel (unsubscribe b) _).
    assert (chan w2 = {| value := next;
                         listeners := (pre ++ [Some a]) ++ (mid ++ None :: post) ++ [] |})
      as Hchan.
    { cbn -[Set_delete unsubscribe]. unfold unsubscribe. cbn -[Set_delete].
      rewrite Hls, Set_delete_app, Set_delete_absent by done.
      rewrite Set_delete_other by congruence.
      rewrite Set_delete_app, Set_delete_absent by done.
      rewrite Set_delete_here, Set_delete_absent by done.
      by rewrite app_nil_r, <-app_assoc. }
    assert (calls w2 = calls w ++ Set_values pre ++ [a]) as Hcalls.
    { cbn. by rewrite <-app_assoc. }
    clearbody w2.
    erewrite (Set_forEach_observers body emit' (pre ++ [Some a]) _ [] w2);
      [|by rewrite Hchan|by rewrite quiet_app, Hmid, quiet_cons_None
       |by rewrite length_app; cbn; lia|done].
    rewrite Set_forEach_past_end.
    + cbn. rewrite Hchan, Hcalls, Set_values_app. cbn.
      by rewrite app_nil_r, <-!app_assoc.
    + cbn. rewrite Hchan. cbn. apply lookup_ge_None_2.
      rewrite ?length_app. cbn. rewrite ?length_app. cbn. lia.
Qed.

End ChannelFacts.

(** ** Property reads *)

Lemma readProperty_own {A : Type} (o : gmap string A) key a :
  o !! key = Some a → readProperty o key = Some (Declared a).
Proof. unfold readProperty. by intros ->. Qed.

(** A read finds something exactly when the name is an own key of the
    object or the name of a member of [Object.prototype]. *)
Lemma readProperty_is_Some {A : Type} (o : gmap string A) key :
  is_Some (readProperty o key) ↔ is_Some (o !! key) ∨ key ∈ objectPrototype.
Proof.
  unfold readProperty. destruct (o !! key) as [a|].
  - split; [by left|by eexists].
  - case_bool_decide as Hname.
    + split; [by right|by eexists].
    + split; [by intros [? ?]|]. intros [[? ?]|?]; done.
Qed.

Lemma readProperty_None {A : Type} (o : gmap string A) key :
  readProperty o key = None ↔ o !! key = None ∧ key ∉ objectPrototype.
Proof.
  rewrite eq_None_not_Some, readProperty_is_Some, eq_None_not_Some. tauto.
Qed.

Lemma readFound_own {A : Type} (o : gmap string (Found A)) key v :
  o !! key = Some v → readFound o key = Some v.
Proof. unfold readFound. by intros ->. Qed.

Lemma readFound_plain {A : Type} (o : gmap string (Found A)) key :
  key ∉ objectPrototype → readFound o key = o !! key.
Proof.
  intros Hplain. unfold readFound. destruct (o !! key); [done|].
  by rewrite bool_decide_eq_false_2.
Qed.

(** What a read finds that is no own property is the member of that
    name. *)
Lemma readFound_cases {A : Type} (o : gmap string (Found A)) key v :
  readFound o key = Some v →
  o !! key = Some v ∨ (o !! key = None ∧ key ∈ objectPrototype ∧ v = Builtin key).
Proof.
  unfold readFound. destruct (o !! key) as [v'|]; [by left|].
  case_bool_decide; [|done]. intros [= <-]. by right.
Qed.

(** ** Channel binding *)

(** Props that bind the same keys to the same things hold the same
    channels. *)
Lemma typed_bindings_inj (m1 m2 : TypedChannels) :
  bindings m1 = bindings m2 → channels m1 = channels m2.
Proof.
  intros Heq. apply map_eq. intros key.
  assert (bindings m1 !! key = bindings m2 !! key) as Hkey by by rewrite Heq.
  cbn in Hkey. rewrite !lookup_fmap in Hkey.
  destruct (channels m1 !! key), (channels m2 !! key); cbn in Hkey; congruence.
Qed.

Lemma lookup_stickyBindings prev incoming key :
  stickyBindings prev incoming !! key
  = (λ channel, default (Declared channel) (prev ≫= λ p, readFound (bindings p) key))
      <$> incoming !! key.
Proof.
  unfold stickyBindings. rewrite map_lookup_imap.
  by destruct (incoming !! key).
Qed.



(** Two maps with the same own properties pass the comparison. *)
Lemma sameChannels_equal_bindings prev candidate :
  bindings prev = bindings candidate → sameChannels prev candidate = true.
Proof.
  intros Heq. unfold sameChannels. rewrite Heq.
  rewrite andb_true_iff, !bool_decide_eq_true. split; [done|].
  intros k c Hk. by apply readFound_own.
Qed.

(** The comparison looks at the candidate's own properties only. *)
Lemma sameChannels_bindings prev candidate candidate' :
  bindings candidate' = bindings candidate →
  sameChannels prev candidate' = sameChannels prev candidate.
Proof. unfold sameChannels. by intros ->. Qed.

(** When the comparison holds, a key of the candidate is bound alike by the
    previous map, unless the previous map does not own the key and the
    candidate holds the member of [Object.prototype] of that name. *)
Lemma sameChannels_key prev candidate key v :
  sameChannels prev candidate = true →
  bindings candidate !! key = Some v →
  bindings prev !! key = Some v
  ∨ (bindings prev !! key = None ∧ key ∈ objectPrototype ∧ v = Builtin key).
Proof.
  unfold sameChannels. rewrite andb_true_iff, !bool_decide_eq_true.
  intros [_ Hall] Hkey. by apply readFound_cases, Hall.
Qed.

(** When the comparison holds and every key of the candidate is read from
    an own property of the previous map, both maps bind the same keys to
    the same things. *)
Lemma sameChannels_own prev candidate :
  sameChannels prev candidate = true →
  (∀ key v, bindings candidate !! key = Some v →
            key ∉ objectPrototype ∨ v ≠ Builtin key) →
  bindings prev = bindings candidate.
Proof.
  intros Hsame Hown. symmetry. apply map_subseteq_size_eq.
  - apply map_subseteq_spec. intros key v Hkey.
    destruct (sameChannels_key _ _ _ _ Hsame Hkey) as [?|(_ & Hname & ->)]; [done|].
    by destruct (Hown _ _ Hkey).
  - unfold sameChannels in Hsame.
    apply andb_true_iff in Hsame as [Hsize%bool_decide_eq_true _]. lia.
Qed.

(** The value returned is what the ref holds afterwards. *)
Lemma getResolvedChannels_ref strategy eventChannels b :
  resolvedChannelsRef (getResolvedChannels strategy eventChannels b).2
  = (getResolvedChannels strategy eventChannels b).1.
Proof.
  unfold getResolvedChannels.
  destruct eventChannels as [incoming|]; [|done].
  destruct (resolvedChannelsRef b) as [p|]; [|done].
  by destruct (sameChannels _ _).
Qed.

(** What is returned is the candidate, or the previous map when the
    comparison holds. *)
Lemma getResolvedChannels_cases strategy (incoming : TypedChannels) b :
  let candidate := candidateOf strategy (resolvedChannelsRef b) incoming (nextObject b) in
  (getResolvedChannels strategy (Some incoming) b).1 = Some candidate
  ∨ ∃ p, resolvedChannelsRef b = Some p ∧ sameChannels p candidate = true
         ∧ (getResolvedChannels strategy (Some incoming) b).1 = Some p.
Proof.
  unfold getResolvedChannels.
  destruct (resolvedChannelsRef b) as [p|]; [|by left].
  destruct (sameChannels _ _) eqn:Hsame; [|by left].
  right. by exists p.
Qed.

(** The keys of a [sticky] candidate that are plain, and the keys of a
    [replace] candidate, are not bound to the member of their name. *)
Lemma candidateOf_not_builtin strategy prev (incoming : TypedChannels) fresh key v :
  strategy = replace ∨ plainKeys incoming →
  bindings (candidateOf strategy prev incoming fresh) !! key = Some v →
  key ∉ objectPrototype ∨ v ≠ Builtin key.
Proof.
  intros Hplain Hkey. destruct strategy; cbn in Hkey.
  - destruct Hplain as [?|Hplain]; [done|]. left.
    rewrite lookup_stickyBindings in Hkey.
    destruct (channels incoming !! key) as [c|] eqn:Hc; [|done].
    by apply (Hplain key c).
  - right. rewrite lookup_fmap in Hkey.
    destruct (channels incoming !! key); [|done]. cbn in Hkey. by intros ->.
Qed.

(** Under [replace], and with plain keys under [sticky], whichever object
    is returned binds what the candidate binds. *)
Lemma getResolvedChannels_bindings strategy (incoming : TypedChannels) b :
  strategy = replace ∨ plainKeys incoming →
  ∃ r, (getResolvedChannels strategy (Some incoming) b).1 = Some r
    ∧ bindings r
      = bindings (candidateOf strategy (resolvedChannelsRef b) incoming (nextObject b)).
Proof.
  intros Hplain.
  destruct (getResolvedChannels_cases strategy incoming b)
    as [Hr|(p & Hprev & Hsame & Hr)]; [by eexists|].
  exists p. split; [done|]. apply sameChannels_own; [done|].
  intros key v. by apply candidateOf_not_builtin.
Qed.

(** What [sticky] binds a key to when the key is plain, or was bound
    before, or no map was resolved before. *)
Lemma sticky_bound b (incoming : TypedChannels) key channel :
  channels incoming !! key = Some channel →
  key ∉ objectPrototype ∨ is_Some (boundChannel b key) ∨ resolvedChannelsRef b = None →
  boundChannel (getResolvedChannels sticky (Some incoming) b).2 key
  = Some (default (Declared channel) (boundChannel b key)).
Proof.
  intros Hkey Hread. unfold boundChannel at 1. rewrite getResolvedChannels_ref.
  pose proof (getResolvedChannels_cases sticky incoming b) as Hcases.
  cbn zeta in Hcases. unfold boundChannel in *.
  destruct (resolvedChannelsRef b) as [p|] eqn:Hprev; cbn in *.
  - assert (readFound (bindings p) key = bindings p !! key) as Hown.
    { destruct Hread as [Hplain|[[v Hv]|?]]; [by apply readFound_plain| |done].
      rewrite Hv. by apply readFound_own. }
    assert (stickyBindings (Some p) (channels incoming) !! key
            = Some (default (Declared channel) (bindings p !! key))) as Hcand.
    { rewrite lookup_stickyBindings, Hkey. cbn. by rewrite Hown. }
    destruct Hcases as [->|(p' & [= <-] & Hsame & ->)]; [done|]. cbn.
    destruct (sameChannels_key _ _ _ _ Hsame Hcand) as [?|(Hnone & Hname & Hv)];
      [done|].
    rewrite Hnone in Hown. unfold readFound in Hown.
    rewrite Hnone, bool_decide_eq_true_2 in Hown by done. done.
  - destruct Hcases as [->|(p' & ? & _)]; [|done]. cbn.
    by rewrite lookup_stickyBindings, Hkey.
Qed.



(** A new map object with the bindings of the resolved one yields a
    candidate with those bindings, under either strategy. *)
Lemma candidateOf_equal_bindings strategy prev (incoming : TypedChannels) fresh :
  bindings incoming = bindings prev →
  bindings (candidateOf strategy (Some prev) incoming fresh) = bindings prev.
Proof.
  intros Heq. destruct strategy; [|done]. cbn.
  apply map_eq. intros key. rewrite lookup_stickyBindings. cbn.
  rewrite <-Heq. cbn. rewrite lookup_fmap.
  destruct (channels incoming !! key) as [c|] eqn:Hc; [|done]. cbn.
  by rewrite (readFound_own _ _ (Declared c)) by (by rewrite lookup_fmap, Hc).
Qed.

Lemma getResolvedChannels_keeps_previous strategy b prev (incoming : TypedChannels) :
  resolvedChannelsRef b = Some prev →
  bindings (candidateOf strategy (Some prev) incoming (nextObject b)) = bindings prev →
  (getResolvedChannels strategy (Some incoming) b).1 = Some prev.
Proof.
  intros Hprev Hcand. unfold getResolvedChannels. rewrite Hprev.
  by rewrite sameChannels_equal_bindings.
Qed.

(** With the dependencies of its last run the effect is skipped. *)
Lemma subscriptionEffect_same_deps channelTransitionsId resolved e :
  lastDeps e = Some (channelTransitionsId, resolved) →
  subscriptionEffect channelTransitionsId resolved e = e.
Proof.
  intros Hdeps. unfold subscriptionEffect, depsChanged. rewrite Hdeps.
  by rewrite bool_decide_eq_true_2.
Qed.

(** After a commit the effect slot remembers what was resolved. *)
Lemma subscriptionEffect_deps channelTransitionsId resolved e :
  lastDeps (subscriptionEffect channelTransitionsId resolved e)
  = Some (channelTransitionsId, resolved).
Proof.
  unfold subscriptionEffect, depsChanged.
  assert (∀ r cleaned,
    lastDeps (let '(subscribed, error) := subscribeEntries (map_to_list (bindings r)) in
              {| lastDeps := Some (channelTransitionsId, Some r);
                 unsubs := match error with None => subscribed | Some _ => [] end;
                 channelCalls := cleaned ++ (uncurry SubscribeCall <$> subscribed);
                 thrown := error |})
    = Some (channelTransitionsId, Some r)) as Hrun.
  { intros r cleaned. by destruct (subscribeEntries _). }
  destruct (lastDeps e) as [d|] eqn:Hlast; [|destruct resolved; [apply Hrun|done]].
  destruct (bool_decide (d = _)) eqn:Hsame; cbn [negb].
  - apply bool_decide_eq_true in Hsame. by rewrite Hlast, Hsame.
  - destruct resolved; [apply Hrun|done].
Qed.

Lemma renderChannels_unfold strategy channelTransitionsId eventChannels b e :
  renderChannels strategy channelTransitionsId eventChannels (b, e)
  = ((getResolvedChannels strategy eventChannels b).1,
     ((getResolvedChannels strategy eventChannels b).2,
      subscriptionEffect channelTransitionsId
        (getResolvedChannels strategy eventChannels b).1 e)).
Proof.
  unfold renderChannels. cbn [fst snd].
  by destruct (getResolvedChannels strategy eventChannels b).
Qed.

(** X16. Two renders in a row with maps that bind the same keys to the same
    channels, be they one object or two: the second render resolves to the
    object of the first and its commit calls no channel. *)
Lemma equal_maps_across_two_renders strategy channelTransitionsId
    (m1 m2 : TypedChannels) b e :
  bindings m2 = bindings m1 →
  let first := renderChannels strategy channelTransitionsId (Some m1) (b, e) in
  let second := renderChannels strategy channelTransitionsId (Some m2) first.2 in
  second.1 = first.1 ∧ channelCalls second.2.2 = channelCalls first.2.2.
Proof.
  intros Heq first second. subst second first.
  rewrite (renderChannels_unfold _ _ (Some m1)). cbn [fst snd].
  set (b1 := (getResolvedChannels strategy (Some m1) b).2).
  set (e1 := subscriptionEffect _ _ e).
  pose proof (typed_bindings_inj _ _ Heq) as Hchannels.
  assert (∃ r1, (getResolvedChannels strategy (Some m1) b).1 = Some r1
            ∧ sameChannels r1 (candidateOf strategy (Some r1) m2 (nextObject b1)) = true)
    as (r1 & Hr1 & Hsame).
  { destruct (getResolvedChannels_cases strategy m1 b)
      as [Hr|(p & Hprev & Hsame & Hr)].
    - eexists. split; [exact Hr|]. apply sameChannels_equal_bindings.
      destruct strategy; cbn [candidateOf bindings]; [|by rewrite <-Heq].
      apply map_eq. intros key. rewrite !lookup_stickyBindings, Hchannels.
      destruct (channels m1 !! key) as [c|] eqn:Hc; [|done]. cbn.
      by rewrite (readFound_own _ _ _ (eq_trans (lookup_stickyBindings _ _ _)
                                        (f_equal _ Hc))).
    - exists p. split; [exact Hr|].
      rewrite <-Hsame. apply sameChannels_bindings.
      destruct strategy; cbn [candidateOf bindings]; [|done].
      by rewrite Hchannels, Hprev. }
  assert (resolvedChannelsRef b1 = Some r1) as Href
    by (subst b1; by rewrite getResolvedChannels_ref).
  assert ((getResolvedChannels strategy (Some m2) b1).1 = Some r1) as Hsecond.
  { unfold getResolvedChannels. rewrite Href. by rewrite Hsame. }
  rewrite renderChannels_unfold. cbn [fst snd].
  rewrite Hsecond, Hr1.
  split; [done|].
  rewrite subscriptionEffect_same_deps; [done|].
  subst e1. by rewrite subscriptionEffect_deps, Hr1.
Qed.

(** C5. When a map has been resolved before and the candidate built from
    the incoming map binds the same keys to the same channels, the previous
    map object itself is returned and stays in the ref; the dependencies of
    the subscription effect are then those of its last run, so the commit
    makes no [subscribe] or unsubscribe call.  (By
    [candidateOf_equal_bindings] a new map object with the bindings of the
    previous one is such a case under both strategies.) *)
Theorem equal_bindings_keep_map_and_subscriptions strategy b prev incoming
    channelTransitionsId e :
  resolvedChannelsRef b = Some prev →
  bindings (candidateOf strategy (Some prev) incoming (nextObject b)) = bindings prev →
  lastDeps e = Some (channelTransitionsId, Some prev) →
  (getResolvedChannels strategy (Some incoming) b).1 = Some prev
  ∧ resolvedChannelsRef (getResolvedChannels strategy (Some incoming) b).2 = Some prev
  ∧ renderChannels strategy channelTransitionsId (Some incoming) (b, e)
    = (Some prev, ((getResolvedChannels strategy (Some incoming) b).2, e))
  ∧ channelCalls (renderChannels strategy channelTransitionsId
                    (Some incoming) (b, e)).2.2 = channelCalls e.
Proof.
  intros Hprev Hcand Hdeps.
  pose proof (getResolvedChannels_keeps_previous strategy b prev incoming Hprev Hcand)
    as Hres.
  split; [done|]. split; [by rewrite getResolvedChannels_ref|].
  rewrite renderChannels_unfold, Hres.
  by rewrite subscriptionEffect_same_deps.
Qed.

(** Every entry of a map that binds channels only is subscribed to. *)
Lemma subscribeEntries_channels (entries : list (string * Found ChanRef)) :
  Forall (λ entry, is_Some (channelOf entry.2)) entries →
  subscribeEntries entries
  = (omap (λ entry, pair entry.1 <$> channelOf entry.2) entries, None).
Proof.
  induction entries as [|[k v] entries IH]; [done|].
  intros [[ch Hv] Hrest]%Forall_cons. destruct v as [c|name]; [|done].
  cbn. by rewrite IH.
Qed.

Lemma subscribeEntries_channelsOnly r :
  channelsOnly r →
  subscribeEntries (map_to_list (bindings r)) = (channelEntries r, None).
Proof.
  intros Honly. apply subscribeEntries_channels.
  apply Forall_forall. intros [k v] Hin%elem_of_map_to_list. by apply (Honly k v).
Qed.


(** The candidate binds channels only when the previous map does and the
    keys that come in are plain, or the strategy is [replace]. *)
Lemma candidateOf_channelsOnly strategy prev (incoming : TypedChannels) fresh :
  strategy = replace ∨ plainKeys incoming →
  from_option channelsOnly True prev →
  channelsOnly (candidateOf strategy prev incoming fresh).
Proof.
  intros Hplain Hprev key v Hkey. destruct strategy; cbn in Hkey.
  - destruct Hplain as [?|Hplain]; [done|].
    rewrite lookup_stickyBindings in Hkey.
    destruct (channels incoming !! key) as [c|] eqn:Hc; [|done].
    cbn in Hkey. injection Hkey as <-.
    destruct prev as [p|]; cbn; [|by eexists].
    rewrite readFound_plain by (by apply (Hplain key c)).
    destruct (bindings p !! key) as [v|] eqn:Hv; cbn; [|by eexists].
    by apply (Hprev key v).
  - rewrite lookup_fmap in Hkey.
    destruct (channels incoming !! key) as [c|]; [|done].
    cbn in Hkey. injection Hkey as <-. by eexists.
Qed.

Lemma getResolvedChannels_channelsOnly strategy eventChannels b :
  from_option (λ m, strategy = replace ∨ plainKeys m) True eventChannels →
  from_option channelsOnly True (resolvedChannelsRef b) →
  from_option channelsOnly True (getResolvedChannels strategy eventChannels b).1.
Proof.
  intros Hplain Hprev. destruct eventChannels as [incoming|]; [|done].
  cbn in Hplain.
  destruct (getResolvedChannels_cases strategy incoming b)
    as [->|(p & Hp & _ & ->)]; cbn.
  - by apply candidateOf_channelsOnly.
  - by rewrite Hp in Hprev.
Qed.


(** ** Flow definitions and the runner *)

Section FlowFacts.
Context {V : Type}.
Implicit Types (flow : FlowDefinition V) (r : Runner V) (step : FlowStep V).

Lemma truthy_spec (s : string) : truthy s = true ↔ s ≠ EmptyString.
Proof. by destruct s. Qed.



(** The oldest snapshot validates [start] in the same way. *)
Lemma Snapshot0_defineFlow_validates_start (steps : gmap string (FlowStep V))
    (options_start : string) :
  (∃ e, Snapshot0.defineFlow steps options_start = Raise e)
  ↔ truthy options_start = false
    ∨ (steps !! options_start = None ∧ options_start ∉ objectPrototype).
Proof.
  unfold Snapshot0.defineFlow.
  destruct (truthy options_start); cbn [negb orb].
  - destruct (readProperty steps options_start) as [found|] eqn:Hstep.
    + rewrite bool_decide_eq_true_2 by done. cbn.
      split; [by intros [? ?]|]. intros [?|Hnone%readProperty_None]; congruence.
    + rewrite bool_decide_eq_false_2 by (by intros [? ?]). cbn.
      apply readProperty_None in Hstep.
      split; [by right|by eexists].
  - split; [by left|by eexists].
Qed.

(** A flow made by [defineFlow] starts on a name that [flow.steps]
    answers to. *)
Lemma defineFlow_start_is_step (given : gmap string (FlowStep V))
    (options : DefineFlowOptions V) flow :
  defineFlow given options = Ok flow →
  is_Some (readProperty (steps flow) (start flow)).
Proof.
  intros Hdef. unfold defineFlow in Hdef.
  destruct (negb _ || negb _) eqn:Hinvalid; [done|].
  injection Hdef as <-. cbn.
  apply orb_false_elim in Hinvalid as [_ Hstep].
  apply negb_false_iff in Hstep. by apply bool_decide_eq_true in Hstep.
Qed.

Lemma applyTransition_isMounted flow (next : option string) r :
  isMounted (applyTransition flow next r) = isMounted r.
Proof.
  unfold applyTransition. destruct (isMounted r) eqn:Hmounted; [|done]. cbn.
  destruct next as [name|]; [|done]. by destruct (_ && _).
Qed.


Lemma runAction_throws step act events d e d' :
  actionThrows step act events d e d' ↔ runAction step act events d = (Raise e, d').
Proof.
  unfold actionThrows, runAction, bindCallback. split.
  - intros [Hi|[(i & d1 & Hi & Ha)|(i & d1 & o & d2 & Hi & Ha & Ho)]];
      rewrite Hi; [done| |]; rewrite Ha; done.
  - destruct (input step events d) as [[i|ei] d1] eqn:Hi.
    + destruct (act i events d1) as [[o|ea] d2] eqn:Ha.
      * intros Ho. right. right. by exists i, d1, o, d2.
      * intros [= <- <-]. right. left. by exists i, d1.
    + intros [= <- <-]. by left.
Qed.

(** Enter the effect on an action step whose callbacks are known. *)
Ltac enter_actionEffect Hstep Haction Hact :=
  unfold actionEffect, tryCatchFinally;
  rewrite (readProperty_own _ _ _ Hstep), Haction, Hact; cbn [negb];
  match goal with
  | |- context [data (state (setBusy true ?r))] =>
      change (data (state (setBusy true r))) with (data (state r))
  end.

(** C3. When [input], [action] or [onOutput] of the action step a mounted
    runner is on throws (or rejects), the effect settles normally: nothing
    is rethrown.  The error has been handed to [console.error], no
    transition has happened ([currentStep] is what it was), [busy] is
    [false] again, and the runner holds the data as the callbacks left
    it. *)
Theorem actionEffect_catches_step_errors flow (events : option EventChannels) r
    step act e d' :
  isMounted r = true →
  steps flow !! currentStep (state r) = Some step →
  isActionStep step = true →
  action step = Some act →
  actionThrows step act events (data (state r)) e d' →
  let settled := (actionEffect flow events r).1 in
  let r' := (actionEffect flow events r).2 in
  settled = Ok ()
  ∧ console r' = console r ++ [("FlowRunner action step error:", e)]
  ∧ currentStep (state r') = currentStep (state r)
  ∧ busy r' = false
  ∧ isMounted r' = true
  ∧ tick r' = tick r
  ∧ data (state r') = d'.
Proof.
  intros Hmounted Hstep Haction Hact Hthrows.
  apply runAction_throws in Hthrows.
  enter_actionEffect Hstep Haction Hact.
  rewrite Hthrows. cbn. rewrite Hmounted. cbn. done.
Qed.

(** After unmount the error is still caught and logged and nothing moves,
    but the guard in [finally] leaves [busy] as the effect set it. *)
Lemma actionEffect_after_unmount flow (events : option EventChannels) r
    step act e d' :
  isMounted r = false →
  steps flow !! currentStep (state r) = Some step →
  isActionStep step = true →
  action step = Some act →
  actionThrows step act events (data (state r)) e d' →
  (actionEffect flow events r).1 = Ok ()
  ∧ console (actionEffect flow events r).2
    = console r ++ [("FlowRunner action step error:", e)]
  ∧ currentStep (state (actionEffect flow events r).2) = currentStep (state r)
  ∧ busy (actionEffect flow events r).2 = true.
Proof.
  intros Hmounted Hstep Haction Hact Hthrows.
  apply runAction_throws in Hthrows.
  enter_actionEffect Hstep Haction Hact.
  rewrite Hthrows. cbn. rewrite Hmounted. cbn. done.
Qed.

(** When the three callbacks return, what [onOutput] returned goes to
    [applyTransition], on the data as they left it, and [busy] is reset. *)
Lemma actionEffect_applies_transition flow (events : option EventChannels) r
    step act next d' :
  isMounted r = true →
  steps flow !! currentStep (state r) = Some step →
  isActionStep step = true →
  action step = Some act →
  runAction step act events (data (state r)) = (Ok next, d') →
  actionEffect flow events r
  = (Ok (), setBusy false (applyTransition flow next (mutated d' (setBusy true r)))).
Proof.
  intros Hmounted Hstep Haction Hact Hruns.
  enter_actionEffect Hstep Haction Hact.
  rewrite Hruns.
  rewrite applyTransition_isMounted.
  change (isMounted (mutated d' (setBusy true r))) with (isMounted r).
  by rewrite Hmounted.
Qed.

(** An output emitted by the view of a UI step: the result of [onOutput]
    goes to [applyTransition]; a throw is logged and nothing moves. *)
Lemma outputHandle_emit_cases flow uiStep (events : option EventChannels) closure
    output r :
  match onOutput uiStep output events (data (capturedState closure r)) with
  | (Ok next, d') =>
      outputHandle_emit flow uiStep events closure output r
      = (Ok (), applyTransition flow next (mutatedThrough closure d' r))
  | (Raise e, d') =>
      outputHandle_emit flow uiStep events closure output r
      = (Ok (), console_error "FlowRunner UI step onOutput error:" e
                  (mutatedThrough closure d' r))
  end.
Proof.
  unfold outputHandle_emit, tryCatchFinally.
  by destruct (onOutput uiStep output events _) as [[next|e] d'].
Qed.

(** What the component returns while it is on an action step. *)
Lemma render_action_step flow (events : option EventChannels) r step :
  steps flow !! currentStep (state r) = Some step →
  isActionStep step = true →
  render flow events r
  = (Ok (Div (if busy r then Some "Processing..." else None)), r).
Proof.
  intros Hstep Haction. unfold render.
  by rewrite (readProperty_own _ _ _ Hstep), Haction.
Qed.

(** A resolver that returns a step name hands it to [applyTransition]; one
    that returns nothing, or throws, only forces a re-render.  The resolver
    is given the step and the data of its closure. *)
Lemma runChannelTransition_cases flow (events : option EventChannels) channelKey
    closure r resolver :
  channelTransitions flow ≫= (λ t, resolvers t !! channelKey) = Some resolver →
  match resolver {| ctx_data := data (capturedState closure r);
                    ctx_currentStep := currentStep (capturedState closure r);
                    ctx_events := events;
                    ctx_channelKey := channelKey |} with
  | (Ok (Some name), d') =>
      name ≠ EmptyString →
      runChannelTransition flow events channelKey closure r
      = applyTransition flow (Some name) (mutatedThrough closure d' r)
  | (Ok None, d') =>
      runChannelTransition flow events channelKey closure r
      = setTick (mutatedThrough closure d' r)
  | (Raise e, d') =>
      runChannelTransition flow events channelKey closure r
      = setTick (console_error "FlowRunner channel transition error:" e
                   (mutatedThrough closure d' r))
  end.
Proof.
  intros Hresolver.
  assert (∀ context result d',
    resolver context = (result, d') →
    context = {| ctx_data := data (capturedState closure r);
                 ctx_currentStep := currentStep (capturedState closure r);
                 ctx_events := events;
                 ctx_channelKey := channelKey |} →
    runChannelTransition flow events channelKey closure r
    = match result with
      | Ok nextStep =>
          if truthyOpt nextStep
          then applyTransition flow nextStep (mutatedThrough closure d' r)
          else setTick (mutatedThrough closure d' r)
      | Raise e =>
          setTick (console_error "FlowRunner channel transition error:" e
                     (mutatedThrough closure d' r))
      end) as Hrun.
  { intros context result d' Hresult ->. unfold runChannelTransition, readProperty.
    destruct (channelTransitions flow) as [t|]; [|done].
    cbn [mbind option_bind] in *. unfold ChannelTransitionResolver in *.
    by rewrite Hresolver, Hresult. }
  destruct (resolver _) as [[[name|]|e] d'] eqn:Hresult;
    rewrite (Hrun _ _ _ Hresult eq_refl); [|done|done].
  intros Hname%truthy_spec. cbn. by rewrite Hname.
Qed.

(** A channel key that has no resolver of its own but names a member of
    [Object.prototype] has that member called as its resolver. *)
Lemma runChannelTransition_inherited flow (events : option EventChannels) channelKey
    closure r t :
  channelTransitions flow = Some t →
  resolvers t !! channelKey = None →
  channelKey ∈ objectPrototype →
  runChannelTransition flow events channelKey closure r
  = match callPrototypeMember channelKey with
    | Ok nextStep => applyTransition flow nextStep r
    | Raise e => setTick (console_error "FlowRunner channel transition error:" e r)
    end.
Proof.
  intros Ht Hnone Hname. unfold runChannelTransition. rewrite Ht. cbn.
  unfold readProperty. rewrite Hnone, bool_decide_eq_true_2 by done.
  unfold callPrototypeMember. by repeat case_decide.
Qed.

End FlowFacts.

(** ** What an action step renders *)

Section RenderPolicy.
Context {V : Type}.
Implicit Types (steps : gmap string (Snapshot2.FlowStep V)).
Implicit Types (r : Snapshot2.Runner V) (step : Snapshot2.FlowStep V).

(** C6. In the newest snapshot, an action step (an [action] and no
    [view]) that declares no render policy renders nothing: the component
    returns [null], whether the runner is busy or not, so in particular
    while the action is running; no callback is called and the runner is
    left as it is. *)
Theorem action_step_without_policy_renders_nothing steps
    (events : option EventChannels) r step :
  steps !! Snapshot2.currentStep r = Some step →
  Snapshot2.isActionStep step = true →
  Snapshot2.actionRender step = None →
  Snapshot2.render steps events r = (Ok Snapshot2.Null, r).
Proof.
  intros Hstep Haction Hpolicy. unfold Snapshot2.render.
  rewrite (readProperty_own _ _ _ Hstep), Haction.
  unfold Snapshot2.rememberUiStep. rewrite Haction. cbn [negb andb].
  unfold Snapshot2.renderActionStep. by rewrite Hpolicy.
Qed.

(** With the [preserve-previous] policy the view of the UI step that was
    on the screen before is rendered instead, with the input that step
    computes now. *)
Lemma action_step_preserving_previous_view steps (events : option EventChannels)
    r step uiStep component :
  steps !! Snapshot2.currentStep r = Some step →
  Snapshot2.isActionStep step = true →
  Snapshot2.actionRender step = Some Snapshot2.PreservePrevious →
  Snapshot2.previousUiStep steps r = Some (uiStep, component) →
  Snapshot2.render steps events r
  = Snapshot2.withInput uiStep events
      (λ i, Snapshot2.ViewComponent component i Snapshot2.Inert) r.
Proof.
  intros Hstep Haction Hpolicy Hprevious. unfold Snapshot2.render.
  rewrite (readProperty_own _ _ _ Hstep), Haction.
  unfold Snapshot2.rememberUiStep. rewrite Haction. cbn [negb andb].
  unfold Snapshot2.renderActionStep. by rewrite Hpolicy, Hprevious.
Qed.

(** X19. [preserve-previous] keeps the last view on the screen.  After a
    render on a UI step, a render on an action step with that policy (the
    ref is kept between renders, the rest of the runner may have changed)
    returns the view of that UI step, with the input the step computes from
    the data as it is now and an output handle that does nothing. *)
Theorem preserve_previous_keeps_last_view steps (events : option EventChannels)
    r uiStep component r2 actionStep :
  steps !! Snapshot2.currentStep r = Some uiStep →
  Snapshot2.view uiStep = Some component →
  Snapshot2.currentStep r ≠ EmptyString →
  Snapshot2.previousUiStepRef r2
  = Snapshot2.previousUiStepRef (Snapshot2.render steps events r).2 →
  steps !! Snapshot2.currentStep r2 = Some actionStep →
  Snapshot2.isActionStep actionStep = true →
  Snapshot2.actionRender actionStep = Some Snapshot2.PreservePrevious →
  Snapshot2.render steps events r2
  = Snapshot2.withInput uiStep events
      (λ i, Snapshot2.ViewComponent component i Snapshot2.Inert) r2.
Proof.
  intros Hstep Hview Hname Href Haction Hisaction Hpolicy.
  apply action_step_preserving_previous_view with (step := actionStep); try done.
  assert (Snapshot2.isActionStep uiStep = false) as Hui.
  { unfold Snapshot2.isActionStep. rewrite Hview.
    rewrite (bool_decide_eq_true_2 (is_Some (Some component))) by done.
    apply andb_false_r. }
  assert (Snapshot2.previousUiStepRef r2 = Some (Snapshot2.currentStep r)) as Hkept.
  { rewrite Href. unfold Snapshot2.render.
    rewrite (readProperty_own _ _ _ Hstep), Hui.
    unfold Snapshot2.rememberUiStep. rewrite Hui, Hview.
    rewrite (bool_decide_eq_true_2 (is_Some (Some component))) by done.
    cbn [negb andb].
    by destruct (Snapshot2.input uiStep events _) as [[i|e] d']. }
  unfold Snapshot2.previousUiStep. rewrite Hkept.
  apply truthy_spec in Hname as ->.
  by rewrite (readProperty_own _ _ _ Hstep), Hview.
Qed.

End RenderPolicy.

(** The snapshot embedded at top level has no render policy: while the
    action of [savingStep] is in flight its component returns the
    [Processing...] placeholder. *)
Lemma busy_action_step_renders_placeholder :
  steps savingFlow !! currentStep (state savingRunner) = Some savingStep
  ∧ isActionStep savingStep = true
  ∧ busy savingRunner = true
  ∧ (render savingFlow None savingRunner).1 = Ok (Div (Some "Processing..."))
  ∧ ¬ rendersNothing (Div (V := nat) (Some "Processing...")).
Proof.
  assert (steps savingFlow !! currentStep (state savingRunner) = Some savingStep)
    as Hstep by (by vm_compute).
  split; [done|]. split; [done|]. split; [done|].
  split; [|by intros [=]].
  by rewrite (render_action_step _ _ _ savingStep).
Qed.

(** ** Where the code departs from the specification *)


(** The other way round: [toString] is no key of [steps], yet a transition
    to it is taken, and the component then throws when it renders. *)
Lemma transition_to_inherited_name_taken :
  ¬ transitionAsSpecified savingFlow (Some "toString") (mount savingFlow ∅)
  ∧ currentStep (state (applyTransition savingFlow (Some "toString")
                          (mount savingFlow ∅))) = "toString"
  ∧ (render savingFlow None
       (applyTransition savingFlow (Some "toString") (mount savingFlow ∅))).1
    = Raise (TypeError "uiStep.input is not a function").
Proof.
  split; [|by vm_compute].
  intros (_ & Hstays & _).
  assert (¬ namesStep savingFlow (Some "toString")) as Hkey.
  { intros (name & [= <-] & Hstep). vm_compute in Hstep. by destruct Hstep. }
  specialize (Hstays Hkey). by vm_compute in Hstays.
Qed.



(** C7. With two listeners of which the first throws, [emit] never
    returns: the second listener, registered all along, is not notified. *)
Lemma emit_with_throwing_listener_never_returns :
  ¬ emitAsSpecified throwingFirst (Callable S) (worldOf 5 [Some 1; Some 2]).
Proof.
  intros (fuel & w' & Hreturned & _).
  destruct fuel as [|[|[|fuel]]]; by vm_compute in Hreturned.
Qed.

(** C8. With two listeners of which the first throws, [emit] throws and
    the second listener is never called. *)
Lemma throwing_listener_breaks_emit :
  ¬ emitShieldsListeners throwingFirst (Callable S) (worldOf 5 [Some 1; Some 2]).
Proof.
  intros [Hshield _].
  by eapply (Hshield 10 (Error "listener failed")
               {| chan := {| value := 6; listeners := [Some 1; Some 2] |};
                  calls := [1] |}).
Qed.

(** C9. A listener subscribed by a callback during the pass is called in
    that same pass: listener 2 was not registered when [emit] started. *)
Lemma listener_added_during_pass_is_called :
  ¬ notifiesSnapshot subscribingFirst (Direct 7) (worldOf 5 [Some 1]).
Proof.
  intros Hsnapshot.
  destruct (Hsnapshot 10
              {| chan := {| value := 7; listeners := [Some 1; Some 2] |};
                 calls := [1; 2] |} eq_refl)
    as (notified & Hcalls & Hsame).
  cbn in Hcalls. subst notified.
  assert (2 ∈ Set_values (A := Listener) [Some 1]) as Hin.
  { apply Hsame. by apply (bool_decide_unpack _). }
  revert Hin. by apply (bool_decide_unpack _).
Qed.

(** The other half: a listener unsubscribed by a callback before its turn
    is skipped, although it was registered when [emit] started. *)
Lemma listener_removed_during_pass_is_skipped :
  ¬ notifiesSnapshot unsubscribingFirst (Direct 7) (worldOf 5 [Some 1; Some 2]).
Proof.
  intros Hsnapshot.
  destruct (Hsnapshot 10
              {| chan := {| value := 7; listeners := [Some 1; None] |};
                 calls := [1] |} eq_refl)
    as (notified & Hcalls & Hsame).
  cbn in Hcalls. subst notified.
  assert (2 ∈ [1]) as Hin.
  { apply Hsame. by apply (bool_decide_unpack _). }
  revert Hin. by apply (bool_decide_unpack _).
Qed.


(** ** The theorems at concrete inputs *)



(** The task of [failingFlow] rejects. *)
Lemma actionEffect_catches_step_errors_witness :
  (actionEffect failingFlow None (mount failingFlow ∅)).1 = Ok ()
  ∧ console (actionEffect failingFlow None (mount failingFlow ∅)).2
    = [("FlowRunner action step error:", Error "request failed")]
  ∧ currentStep (state (actionEffect failingFlow None (mount failingFlow ∅)).2) = "load"
  ∧ busy (actionEffect failingFlow None (mount failingFlow ∅)).2 = false.
Proof.
  destruct (actionEffect_catches_step_errors failingFlow None (mount failingFlow ∅)
              failingStep
              (λ _ _ d, (Raise (Error "request failed"), <["tried" := 1]> d))
              (Error "request failed") (<["tried" := 1]> ∅))
    as (Hsettled & Hlogged & Hstep & Hbusy & _).
  - reflexivity.
  - vm_compute. reflexivity.
  - reflexivity.
  - reflexivity.
  - right. left. exists 0, ∅. split; reflexivity.
  - repeat split; assumption.
Defined.


(** A second map object with the bindings of [mapA], under both
    strategies. *)
Lemma equal_bindings_keep_map_and_subscriptions_witness :
  bindings mapA' = bindings mapA
  ∧ ident mapA' ≠ ident mapA
  ∧ (getResolvedChannels replace (Some mapA') boundToA).1 = Some (asEventChannels mapA)
  ∧ channelCalls (renderChannels sticky None (Some mapA') (boundToA, subscribedToA)).2.2
    = channelCalls subscribedToA.
Proof.
  split; [reflexivity|]. split; [discriminate|]. split.
  - apply (equal_bindings_keep_map_and_subscriptions replace boundToA mapA mapA'
             None subscribedToA); reflexivity.
  - apply (equal_bindings_keep_map_and_subscriptions sticky boundToA mapA mapA'
             None subscribedToA); [reflexivity| |reflexivity].
    apply (candidateOf_equal_bindings sticky mapA mapA'). reflexivity.
Defined.

(** Two observers around an emptied entry, and a callable update. *)
Lemma emit_commits_then_notifies_witness :
  ∃ w', emit observers 10 (Callable S) (worldOf 5 [Some 1; None; Some 2]) = Returned w'
    ∧ value (chan w') = 6
    ∧ listeners (chan w') = [Some 1; None; Some 2]
    ∧ calls w' = [1; 2]
    ∧ get (chan w') = 6.
Proof.
  apply (emit_commits_then_notifies observers (Callable S)
           (worldOf 5 [Some 1; None; Some 2]) 10); [reflexivity|cbn; lia].
Defined.

(** An observer, then the throwing listener, then an observer that is never
    reached. *)
Lemma emit_propagates_listener_exception_witness :
  emit throwingFirst 10 (Direct 9) (worldOf 5 [Some 3; Some 1; Some 2])
  = Thrown (Error "listener failed")
      {| chan := {| value := 9; listeners := [Some 3; Some 1; Some 2] |};
         calls := [3; 1] |}.
Proof.
  apply (emit_propagates_listener_exception throwingFirst (Direct 9)
           (worldOf 5 [Some 3; Some 1; Some 2]) [Some 3] 1 [Some 2]
           (Error "listener failed") [] 10);
    [reflexivity|reflexivity|reflexivity|cbn; lia].
Defined.

(** Listener 2 joins, and then leaves, in the middle of a pass. *)
Lemma emit_walks_live_listeners_witness :
  emit subscribingFirst 10 (Direct 9) (worldOf 5 [Some 3; Some 1; Some 4])
  = Returned {| chan := {| value := 9;
                           listeners := [Some 3; Some 1; Some 4; Some 2] |};
                calls := [3; 1; 4; 2] |}
  ∧ emit unsubscribingFirst 10 (Direct 9)
      (worldOf 5 [Some 3; Some 1; Some 4; Some 2; Some 5])
    = Returned {| chan := {| value := 9;
                             listeners := [Some 3; Some 1; Some 4; None; Some 5] |};
                  calls := [3; 1; 4; 5] |}.
Proof.
  split.
  - apply (proj1 (emit_walks_live_listeners subscribingFirst (Direct 9)
                    (worldOf 5 [Some 3; Some 1; Some 4]))
             [Some 3] 1 [Some 4] 2 10);
      [reflexivity|reflexivity|reflexivity|reflexivity|reflexivity|reflexivity
      |cbn; lia].
  - apply (proj2 (emit_walks_live_listeners unsubscribingFirst (Direct 9)
                    (worldOf 5 [Some 3; Some 1; Some 4; Some 2; Some 5]))
             [Some 3] 1 [Some 4] 2 [Some 5] 10);
      [reflexivity|reflexivity|reflexivity|reflexivity|reflexivity|discriminate
      |apply (bool_decide_unpack _); exact I
      |apply (bool_decide_unpack _); exact I
      |apply (bool_decide_unpack _); exact I
      |cbn; lia].
Defined.


(** [saving] of [policySteps] declares nothing about rendering, and the
    runner is busy. *)
Lemma action_step_without_policy_renders_nothing_witness :
  Snapshot2.busy (busyOn "saving") = true
  ∧ Snapshot2.render policySteps None (busyOn "saving")
    = (Ok Snapshot2.Null, busyOn "saving").
Proof.
  split; [reflexivity|].
  apply (action_step_without_policy_renders_nothing policySteps None
           (busyOn "saving") plainSavingStep);
    [vm_compute; reflexivity|reflexivity|reflexivity].
Defined.

(** ** The scenarios of the repository's tests *)

(** "uses sticky strategy by default for same channel key replacements" *)
Example sticky_by_default_keeps_channelA :
  boundChannel (resolveAll (eventChannelsStrategyOf None) [Some mapA; Some mapB] unbound)
    "counter" = Some (Declared 10).
Proof. reflexivity. Qed.

(** "uses replace strategy when explicitly requested" *)
Example replace_takes_channelB :
  boundChannel (resolveAll (eventChannelsStrategyOf (Some replace))
                  [Some mapA; Some mapB] unbound) "counter" = Some (Declared 20).
Proof. reflexivity. Qed.

(** "deduplicates equivalent channel maps to avoid re-subscribe churn": one
    [subscribe] call after two renders, no unsubscribe call. *)
Example equivalent_maps_subscribe_once :
  channelCalls
    (renderChannels sticky None (Some mapA')
       (renderChannels sticky None (Some mapA) (unbound, noSubscriptions)).2).2.2
  = [SubscribeCall "counter" 10].
Proof. by vm_compute. Qed.

(** "stays on same step when transition target is unknown" *)
Example unknown_target_stays :
  currentStep (state (applyTransition savingFlow (Some "missingStep")
                        (mount savingFlow ∅))) = "saving".
Proof. by vm_compute. Qed.

(** "auto-runs action step and transitions" *)
Example action_step_runs_and_transitions :
  let r := (actionEffect savingFlow None (mount savingFlow ∅)).2 in
  currentStep (state r) = "done" ∧ data (state r) !! "value" = Some 1
  ∧ busy r = false.
Proof. by vm_compute. Qed.

(** "renders nothing by default while action step is running" *)
Example renders_nothing_by_default_while_running :
  (Snapshot2.render policySteps None (busyOn "saving")).1 = Ok Snapshot2.Null.
Proof. by vm_compute. Qed.

(** "preserve-previous": the form stays on the screen while [keeping]
    runs. *)
Example preserve_previous_keeps_the_form :
  (Snapshot2.render policySteps None (busyOn "keeping")).1
  = Ok (Snapshot2.ViewComponent "FormView" 5 Snapshot2.Inert).
Proof. by vm_compute. Qed.

(** * More of the code *)

(** ** Subscribing and unsubscribing *)

Section JsSetMore.
Context {A : Type} `{EqDecision A}.
Implicit Types (s : SetData A) (x : A).

Lemma Set_has_true x s : Set_has x s = true ↔ Some x ∈ s.
Proof. unfold Set_has. apply bool_decide_eq_true. Qed.

Lemma Set_has_false x s : Set_has x s = false ↔ Some x ∉ s.
Proof. unfold Set_has. apply bool_decide_eq_false. Qed.

Lemma elem_of_Set_values x s : x ∈ Set_values s ↔ Some x ∈ s.
Proof.
  unfold Set_values. rewrite list_elem_of_omap. split.
  - by intros ([y|] & Hin & [= ->]).
  - intros Hin. by exists (Some x).
Qed.

Lemma Set_values_delete x s :
  Set_values (Set_delete x s) = filter (λ y, y ≠ x) (Set_values s).
Proof.
  unfold Set_values, Set_delete.
  induction s as [|[y|] s IH]; [done| |done].
  cbn. destruct (decide (Some y = Some x)) as [[= ->]|Hne]; cbn.
  - rewrite decide_False by (intros Hne; by apply Hne). done.
  - rewrite decide_True by congruence. by rewrite IH.
Qed.

Lemma Set_add_twice x s : Set_add x (Set_add x s) = Set_add x s.
Proof.
  destruct (Set_has x s) eqn:Hhas.
  - by rewrite !(Set_add_present x s).
  - rewrite (Set_add_new x s) by done. apply Set_add_present.
    apply Set_has_true, elem_of_app. right. by apply list_elem_of_singleton.
Qed.

Lemma Set_delete_twice x s : Set_delete x (Set_delete x s) = Set_delete x s.
Proof. apply Set_delete_absent, Set_has_false, Set_delete_gone. Qed.

Lemma Set_add_distinct x s : NoDup (Set_values s) → NoDup (Set_values (Set_add x s)).
Proof.
  intros Hdistinct. unfold Set_add. destruct (Set_has x s) eqn:Hhas; [done|].
  rewrite Set_values_app. apply NoDup_app. split; [done|]. split.
  - intros y Hy Hx. cbn in Hx. apply list_elem_of_singleton in Hx as ->.
    apply elem_of_Set_values in Hy. by apply Set_has_false in Hhas.
  - cbn. apply NoDup_singleton.
Qed.

Lemma Set_delete_distinct x s :
  NoDup (Set_values s) → NoDup (Set_values (Set_delete x s)).
Proof. intros Hdistinct. rewrite Set_values_delete. by apply NoDup_filter. Qed.

Lemma Set_size_add x s : Set_size (Set_add x s) ≤ S (Set_size s).
Proof.
  unfold Set_size, Set_add. destruct (Set_has x s); [lia|].
  rewrite Set_values_app, length_app. cbn. lia.
Qed.

Lemma Set_size_delete x s :
  Set_has x s = true → S (Set_size (Set_delete x s)) ≤ Set_size s.
Proof.
  intros Hhas%Set_has_true%elem_of_Set_values.
  unfold Set_size. rewrite Set_values_delete.
  induction (Set_values s) as [|y l IH]; [by apply elem_of_nil in Hhas|].
  destruct (decide (y = x)) as [->|Hne].
  - rewrite filter_cons_False by (intros Hne; by apply Hne). cbn.
    pose proof (length_filter (λ y, y ≠ x) l). lia.
  - rewrite filter_cons_True by done. cbn.
    apply elem_of_cons in Hhas as [->|Hin]; [done|].
    specialize (IH Hin). lia.
Qed.

End JsSetMore.

Section ChannelMore.
Context {T : Type}.
Implicit Types (c : FlowChannel T) (w : World T) (l : Listener).
Implicit Types (body : Listener → list (Op T)) (t : TrackedChannel T).

(** X1. Registering one listener function twice registers it once, so the
    first call of the function [subscribe] returned removes it for both
    subscribers; and calling that function again changes nothing. *)
Theorem subscribe_twice_registers_once c l :
  subscribe l (subscribe l c) = subscribe l c
  ∧ Set_size (listeners (subscribe l (subscribe l c)))
    = Set_size (listeners (subscribe l c))
  ∧ Set_has l (listeners (unsubscribe l (subscribe l (subscribe l c)))) = false
  ∧ unsubscribe l (unsubscribe l c) = unsubscribe l c.
Proof.
  assert (subscribe l (subscribe l c) = subscribe l c) as Honce.
  { unfold subscribe. cbn -[Set_add]. by rewrite Set_add_twice. }
  split; [done|]. split; [by rewrite Honce|]. split.
  - cbn -[Set_add Set_delete Set_has]. apply Set_delete_gone.
  - unfold unsubscribe. cbn -[Set_delete]. by rewrite Set_delete_twice.
Qed.

(** With listeners that only observe, [emit] returns after calling each
    live listener. *)
Lemma emit_observers body (update : Updater T) w fuel :
  quiet body (listeners (chan w)) = true →
  length (listeners (chan w)) + 2 ≤ fuel →
  emit body fuel update w
  = Returned {| chan := {| value := applyUpdate update (value (chan w));
                           listeners := listeners (chan w) |};
                calls := calls w ++ Set_values (listeners (chan w)) |}.
Proof.
  intros Hq Hfuel.
  destruct fuel as [|fuel]; [lia|].
  destruct (fuel_split fuel (length (listeners (chan w)))) as [k ->]; [lia|].
  cbn [emit]. set (w1 := commit _ w).
  erewrite (Set_forEach_observers body _ [] (listeners (chan w)) [] w1);
    [|by cbn; rewrite app_nil_r|done|done|done].
  by rewrite Set_forEach_past_end by (cbn; by apply lookup_ge_None_2).
Qed.

Lemma quiet_delete body l (s : SetData Listener) :
  quiet body s = true → quiet body (Set_delete l s) = true.
Proof.
  unfold quiet. rewrite Set_values_delete, !forallb_forall.
  intros Hq q Hin. apply Hq.
  apply list_elem_of_In. apply list_elem_of_In in Hin.
  by apply list_elem_of_filter in Hin as [_ Hin].
Qed.

(** X2. [emit] follows the subscriptions (the listeners only observe).  A
    listener that has just been subscribed is called, once and after the
    others; after the function [subscribe] returned has been called, [emit]
    does not call the listener any more and calls the others in the order
    they had. *)
Theorem emit_follows_subscriptions body (update : Updater T) c l fuel :
  quiet body (listeners c) = true →
  length (listeners c) + 3 ≤ fuel →
  let next := applyUpdate update (value c) in
  (body l = [] → Set_has l (listeners c) = false →
   emit body fuel update {| chan := subscribe l c; calls := [] |}
   = Returned {| chan := {| value := next; listeners := listeners c ++ [Some l] |};
                 calls := Set_values (listeners c) ++ [l] |})
  ∧ (∃ w', emit body fuel update {| chan := unsubscribe l c; calls := [] |}
           = Returned w'
        ∧ value (chan w') = next
        ∧ calls w' = filter (λ q, q ≠ l) (Set_values (listeners c))
        ∧ l ∉ calls w').
Proof.
  intros Hq Hfuel next. split.
  - intros Hl Hnew.
    rewrite emit_observers; cbn [chan listeners subscribe value calls app];
      rewrite Set_add_new by done.
    + by rewrite Set_values_app.
    + rewrite quiet_app, Hq. unfold quiet. cbn. by rewrite Hl.
    + rewrite length_app. cbn. lia.
  - eexists. split.
    + apply emit_observers; cbn [chan listeners unsubscribe].
      * by apply quiet_delete.
      * unfold Set_delete. rewrite length_fmap. lia.
    + cbn [chan listeners unsubscribe value calls app].
      rewrite Set_values_delete. split; [done|]. split; [done|].
      intros Hin. by apply list_elem_of_filter in Hin as [Hne _].
Qed.

(** [forEach] never gets past a listener that takes itself out of the set
    and puts itself back: each call leaves it as a new last entry. *)
Lemma Set_forEach_resubscribing body emit' l fuel : ∀ visited seg w,
  body l = [CallUnsubscribe l; CallSubscribe l] →
  listeners (chan w) = visited ++ seg ++ [Some l] →
  quiet body seg = true →
  Set_forEach fuel (λ w, listeners (chan w)) (callListener body emit')
    (length visited) w = OutOfFuel.
Proof.
  induction fuel as [|fuel IH]; intros visited seg w Hbody Hls Hq; [done|].
  destruct seg as [|[q|] seg].
  - cbn [app] in Hls.
    erewrite Set_forEach_call; [|by rewrite Hls; apply list_lookup_middle].
    rewrite Hbody. cbn [runOps].
    set (w2 := onChannel (subscribe l) _).
    assert (listeners (chan w2) = (Set_delete l visited ++ [None]) ++ [] ++ [Some l])
      as Hw2.
    { cbn -[Set_add Set_delete]. rewrite Hls, Set_delete_app, Set_delete_here.
      rewrite Set_add_new; [done|].
      rewrite <-Set_delete_here, <-Set_delete_app. apply Set_delete_gone. }
    clearbody w2.
    specialize (IH (Set_delete l visited ++ [None]) [] w2 Hbody Hw2 eq_refl).
    rewrite length_app in IH. unfold Set_delete in IH at 1.
    rewrite length_fmap in IH. cbn [length] in IH.
    by replace (length visited + 1) with (S (length visited)) in IH by lia.
  - apply quiet_cons_Some in Hq as [Hquiet Hq].
    rewrite <-app_comm_cons in Hls.
    erewrite Set_forEach_call; [|by rewrite Hls; apply list_lookup_middle].
    rewrite Hquiet. cbn [runOps].
    specialize (IH (visited ++ [Some q]) seg (called q w) Hbody).
    rewrite length_app in IH. cbn [length] in IH.
    replace (length visited + 1) with (S (length visited)) in IH by lia.
    apply IH; [|done]. cbn. by rewrite Hls, <-app_assoc.
  - rewrite quiet_cons_None in Hq.
    rewrite <-app_comm_cons in Hls.
    cbn [Set_forEach]. rewrite Hls, list_lookup_middle by done.
    specialize (IH (visited ++ [None]) seg w Hbody).
    rewrite length_app in IH. cbn [length] in IH.
    replace (length visited + 1) with (S (length visited)) in IH by lia.
    apply IH; [|done]. by rewrite Hls, <-app_assoc.
Qed.

(** X3. A listener that, when called, unsubscribes itself and subscribes
    itself again keeps [emit] in its notification loop for ever: whatever the
    number of steps allowed, [emit] has not returned (the listeners before
    it only observe). *)
Theorem resubscribing_listener_never_returns body (update : Updater T) w pre l :
  listeners (chan w) = pre ++ [Some l] →
  quiet body pre = true →
  body l = [CallUnsubscribe l; CallSubscribe l] →
  ∀ fuel, emit body fuel update w = OutOfFuel.
Proof.
  intros Hls Hq Hbody [|fuel]; [done|].
  cbn [emit].
  by apply (Set_forEach_resubscribing body _ l fuel [] pre).
Qed.

Lemma applyUpdates_cons (update : Updater T) updates (v : T) :
  applyUpdates (update :: updates) v = applyUpdates updates (applyUpdate update v).
Proof. done. Qed.

(** X4. Emits compose: with listeners that only observe, a run of [emit]
    calls returns, the value is the updates applied one after the other to
    the value before, the listener set is untouched, and every live listener
    has been called once per [emit]. *)
Theorem emits_compose body (updates : list (Updater T)) : ∀ w fuel,
  quiet body (listeners (chan w)) = true →
  length (listeners (chan w)) + 2 ≤ fuel →
  emitAll body fuel updates w
  = Returned {| chan := {| value := applyUpdates updates (value (chan w));
                           listeners := listeners (chan w) |};
                calls := calls w
                         ++ concat (replicate (length updates)
                                      (Set_values (listeners (chan w)))) |}.
Proof.
  induction updates as [|update updates IH]; intros w fuel Hq Hfuel.
  - cbn. rewrite app_nil_r. by destruct w as [[? ?] ?].
  - cbn [emitAll]. rewrite emit_observers by done.
    rewrite IH by done. cbn. by rewrite <-app_assoc.
Qed.

Lemma trackedCall_distinct t (call : TrackedCall) :
  NoDup (Set_values (listeners (channel t))) →
  NoDup (Set_values (listeners (channel (trackedCall t call)))).
Proof.
  intros Hdistinct. destruct call as [l|l]; cbn -[Set_add Set_delete Set_has].
  - by apply Set_add_distinct.
  - unfold trackedUnsubscribe. destruct (Set_has _ _); [|done].
    cbn -[Set_delete]. by apply Set_delete_distinct.
Qed.

Lemma trackedCall_counts t (call : TrackedCall) :
  activeSubscribers t + unsubscribeCalls t ≤ subscribeCalls t →
  activeSubscribers (trackedCall t call) + unsubscribeCalls (trackedCall t call)
  ≤ subscribeCalls (trackedCall t call).
Proof.
  intros Hcounts. destruct call as [l|l]; cbn [trackedCall].
  - unfold activeSubscribers in *. cbn -[Set_add Set_size].
    pose proof (Set_size_add l (listeners (channel t))). lia.
  - unfold trackedUnsubscribe. destruct (Set_has _ _) eqn:Hhas; [|done].
    unfold activeSubscribers in *. cbn -[Set_delete Set_size].
    pose proof (Set_size_delete l (listeners (channel t)) Hhas). lia.
Qed.

Lemma trackedUnsubscribe_twice t l :
  trackedUnsubscribe l (trackedUnsubscribe l t) = trackedUnsubscribe l t.
Proof.
  destruct (Set_has l (listeners (channel t))) eqn:Hhas.
  - assert (trackedUnsubscribe l t
            = {| channel := unsubscribe l (channel t);
                 subscribeCalls := subscribeCalls t;
                 unsubscribeCalls := S (unsubscribeCalls t) |}) as ->
      by (unfold trackedUnsubscribe; by rewrite Hhas).
    unfold trackedUnsubscribe. cbn -[Set_delete Set_has].
    by rewrite Set_delete_gone.
  - assert (trackedUnsubscribe l t = t) as Hsame
      by (unfold trackedUnsubscribe; by rewrite Hhas).
    by rewrite !Hsame.
Qed.

(** X5. The tracked channel of the tests, whatever is subscribed and
    unsubscribed in whatever order: no listener is registered twice, the
    active subscribers and the counted unsubscribe calls never exceed the
    counted [subscribe] calls, and an unsubscribe call that finds its
    listener gone is not counted. *)
Theorem tracked_channel_counts (initial : T) (calls : list TrackedCall) :
  let t := foldl trackedCall (createTrackedChannel initial) calls in
  NoDup (Set_values (listeners (channel t)))
  ∧ activeSubscribers t + unsubscribeCalls t ≤ subscribeCalls t
  ∧ ∀ l, trackedUnsubscribe l (trackedUnsubscribe l t) = trackedUnsubscribe l t.
Proof.
  cbn zeta.
  assert (∀ t0,
    NoDup (Set_values (listeners (channel t0))) →
    activeSubscribers t0 + unsubscribeCalls t0 ≤ subscribeCalls t0 →
    NoDup (Set_values (listeners (channel (foldl trackedCall t0 calls))))
    ∧ activeSubscribers (foldl trackedCall t0 calls)
      + unsubscribeCalls (foldl trackedCall t0 calls)
      ≤ subscribeCalls (foldl trackedCall t0 calls)) as Hrun.
  { induction calls as [|call calls IH]; intros t0 Hdistinct Hcounts; [done|].
    cbn [foldl]. apply IH; [by apply trackedCall_distinct|by apply trackedCall_counts]. }
  destruct (Hrun (createTrackedChannel initial)) as [Hdistinct Hcounts].
  { cbn. apply NoDup_nil_2. }
  { cbn. lia. }
  split; [done|]. split; [done|].
  intros l. apply trackedUnsubscribe_twice.
Qed.

End ChannelMore.

(** ** More on channel binding *)

Lemma resolveAll_app strategy props1 props2 b :
  resolveAll strategy (props1 ++ props2) b
  = resolveAll strategy props2 (resolveAll strategy props1 b).
Proof. unfold resolveAll. apply foldl_app. Qed.

Lemma boundChannel_resolved strategy (incoming : TypedChannels) b key :
  strategy = replace ∨ plainKeys incoming →
  boundChannel (getResolvedChannels strategy (Some incoming) b).2 key
  = bindings (candidateOf strategy (resolvedChannelsRef b) incoming (nextObject b))
      !! key.
Proof.
  intros Hplain. unfold boundChannel. rewrite getResolvedChannels_ref.
  destruct (getResolvedChannels_bindings strategy incoming b Hplain) as (r & -> & Hr).
  cbn. by rewrite Hr.
Qed.

(** X6. Under [replace] the resolved map binds what the incoming map binds,
    whatever was bound before; so after any run of renders the channel bound
    to a key is the one of the map supplied last. *)
Theorem replace_binds_latest (b : Binding) (key : string) :
  (∀ incoming : TypedChannels, ∃ r,
      (getResolvedChannels replace (Some incoming) b).1 = Some r
      ∧ bindings r = bindings incoming)
  ∧ (∀ props (latest : TypedChannels),
      boundChannel (resolveAll replace (props ++ [Some latest]) b) key
      = bindings latest !! key).
Proof.
  split.
  - intros incoming. apply (getResolvedChannels_bindings replace). by left.
  - intros props latest. rewrite resolveAll_app.
    apply (boundChannel_resolved replace). by left.
Qed.

(** X7. Stickiness lasts only as long as the key keeps coming.  After a
    render whose map lacks the key, or a render without a map, the next
    render binds the key to the channel of its own map, also when another
    channel was bound to the key before.  (For the render whose map lacks
    the key: when neither the key nor a key of that map is the name of a
    member of [Object.prototype].) *)
Theorem sticky_forgets_dropped_keys (b : Binding) (key : string)
    (later : TypedChannels) :
  (∀ without : TypedChannels,
      channels without !! key = None →
      plainKeys without →
      key ∉ objectPrototype →
      boundChannel (resolveAll sticky [Some without; Some later] b) key
      = bindings later !! key)
  ∧ boundChannel (resolveAll sticky [None; Some later] b) key
    = bindings later !! key.
Proof.
  assert (∀ b1, boundChannel b1 key = None →
            key ∉ objectPrototype ∨ resolvedChannelsRef b1 = None →
            boundChannel (getResolvedChannels sticky (Some later) b1).2 key
            = bindings later !! key) as Hrebind.
  { intros b1 Hnone Hread.
    replace (bindings later !! key) with (Declared <$> channels later !! key)
      by (symmetry; apply lookup_fmap).
    destruct (channels later !! key) as [c|] eqn:Hc.
    - rewrite (sticky_bound b1 later key c Hc), Hnone; [done|].
      destruct Hread; [by left|by right; right].
    - unfold boundChannel. rewrite getResolvedChannels_ref.
      destruct (getResolvedChannels_cases sticky later b1)
        as [->|(p & Hp & _ & ->)]; cbn.
      + by rewrite lookup_stickyBindings, Hc.
      + unfold boundChannel in Hnone. by rewrite Hp in Hnone. }
  split.
  - intros without Hwithout Hplain Hkey.
    change (resolveAll sticky [Some without; Some later] b)
      with (getResolvedChannels sticky (Some later)
              (getResolvedChannels sticky (Some without) b).2).2.
    apply Hrebind; [|by left].
    rewrite boundChannel_resolved by (by right). cbn.
    by rewrite lookup_stickyBindings, Hwithout.
  - change (resolveAll sticky [None; Some later] b)
      with (getResolvedChannels sticky (Some later)
              (getResolvedChannels sticky None b).2).2.
    apply Hrebind; [done|by right].
Qed.

(** ** Subscriptions over the life of a runner *)

Lemma countIf_app {A : Type} (p : A → bool) (l1 l2 : list A) :
  countIf p (l1 ++ l2) = countIf p l1 + countIf p l2.
Proof. unfold countIf. by rewrite List.filter_app, length_app. Qed.

Lemma countIf_subscribe_calls ch (entries : list (string * ChanRef)) :
  countIf (isSubscribeOn ch) (uncurry SubscribeCall <$> entries)
  = countIf (λ entry, bool_decide (entry.2 = ch)) entries
  ∧ countIf (isUnsubscribeOn ch) (uncurry SubscribeCall <$> entries) = 0.
Proof.
  unfold countIf. induction entries as [|[k c] entries [IHs IHu]]; [done|].
  cbn. split; [|done]. destruct (bool_decide (c = ch)); cbn; by rewrite IHs.
Qed.

Lemma countIf_unsubscribe_calls ch (entries : list (string * ChanRef)) :
  countIf (isUnsubscribeOn ch) (uncurry UnsubscribeCall <$> entries)
  = countIf (λ entry, bool_decide (entry.2 = ch)) entries
  ∧ countIf (isSubscribeOn ch) (uncurry UnsubscribeCall <$> entries) = 0.
Proof.
  unfold countIf. induction entries as [|[k c] entries [IHu IHs]]; [done|].
  cbn. split; [|done]. destruct (bool_decide (c = ch)); cbn; by rewrite IHu.
Qed.

(** A commit that resolves to a map of channels does not throw, and keeps
    the books balanced. *)
Lemma settled_subscriptionEffect channelTransitionsId resolved e :
  settled e →
  from_option channelsOnly True resolved →
  settled (subscriptionEffect channelTransitionsId resolved e).
Proof.
  intros (Hthrown & Hunsubs & Hcounts) Honly. unfold subscriptionEffect.
  destruct (depsChanged _ _); [|done].
  assert (∀ ch entries,
    countIf (isSubscribeOn ch)
      ((channelCalls e ++ (uncurry UnsubscribeCall <$> unsubs e))
       ++ (uncurry SubscribeCall <$> entries))
    = countIf (isUnsubscribeOn ch)
        ((channelCalls e ++ (uncurry UnsubscribeCall <$> unsubs e))
         ++ (uncurry SubscribeCall <$> entries))
      + countIf (λ entry, bool_decide (entry.2 = ch)) entries) as Hbalance.
  { intros ch entries. rewrite !countIf_app.
    destruct (countIf_subscribe_calls ch entries) as [-> ->].
    destruct (countIf_unsubscribe_calls ch (unsubs e)) as [-> ->].
    specialize (Hcounts ch). unfold activeOn in Hcounts. lia. }
  destruct resolved as [r|].
  - cbn in Honly. rewrite (subscribeEntries_channelsOnly r Honly).
    split; [done|]. split; [done|]. intros ch. apply Hbalance.
  - split; [done|]. split; [done|].
    intros ch. unfold activeOn. cbn [channelCalls unsubs].
    rewrite !countIf_app.
    destruct (countIf_unsubscribe_calls ch (unsubs e)) as [-> ->].
    specialize (Hcounts ch). unfold activeOn in Hcounts.
    change (countIf (λ entry : string * ChanRef, bool_decide (entry.2 = ch)) [])
      with 0.
    lia.
Qed.

Lemma renderAllChannels_app renders1 renders2 s :
  renderAllChannels (renders1 ++ renders2) s
  = renderAllChannels renders2 (renderAllChannels renders1 s).
Proof. unfold renderAllChannels. apply foldl_app. Qed.

Lemma renderAllChannels_cons p renders s :
  thrown s.2 = None →
  renderAllChannels (p :: renders) s
  = renderAllChannels renders
      (renderChannels (props_strategy p) (props_channelTransitionsId p)
         (props_eventChannels p) s).2.
Proof. intros Hthrown. cbn. by rewrite Hthrown. Qed.

(** One render with plain props keeps the effect settled and the ref on a
    map of channels. *)
Lemma settled_renderChannels p s :
  plainProps p →
  settled s.2 →
  from_option channelsOnly True (resolvedChannelsRef s.1) →
  let s' := (renderChannels (props_strategy p) (props_channelTransitionsId p)
               (props_eventChannels p) s).2 in
  settled s'.2
  ∧ from_option channelsOnly True (resolvedChannelsRef s'.1)
  ∧ lastResolved s'.2 = resolvedChannelsRef s'.1.
Proof.
  intros Hplain Hsettled Honly. destruct s as [b e].
  rewrite renderChannels_unfold. cbn [fst snd] in *.
  assert (from_option channelsOnly True
            (getResolvedChannels (props_strategy p) (props_eventChannels p) b).1)
    as Hresolved.
  { apply getResolvedChannels_channelsOnly; [|done].
    unfold plainProps in Hplain.
    destruct (props_eventChannels p) as [m|]; [|done].
    cbn in *. by destruct Hplain as [?|?]; [left|right]. }
  split; [by apply settled_subscriptionEffect|].
  rewrite getResolvedChannels_ref. split; [done|].
  unfold lastResolved. by rewrite subscriptionEffect_deps.
Qed.

Lemma settled_renderAllChannels renders : ∀ s,
  Forall plainProps renders →
  settled s.2 →
  from_option channelsOnly True (resolvedChannelsRef s.1) →
  settled (renderAllChannels renders s).2
  ∧ from_option channelsOnly True (resolvedChannelsRef (renderAllChannels renders s).1).
Proof.
  induction renders as [|p renders IH]; intros s Hplain Hsettled Honly; [done|].
  apply Forall_cons in Hplain as [Hp Hplain].
  rewrite renderAllChannels_cons by apply Hsettled.
  destruct (settled_renderChannels p s Hp Hsettled Honly) as (Hsettled' & Honly' & _).
  by apply IH.
Qed.

(** X8. Subscriptions follow the resolved map.  After any run of renders,
    with whatever strategies and flows, and with maps none of whose keys
    is the name of a member of [Object.prototype] where the strategy is
    [sticky], the effect has not thrown, the subscriptions the runner holds
    are exactly the entries of the map in its ref (none when there is no
    map), and on every channel the [subscribe] calls made so far are the
    unsubscribe calls made so far plus the subscriptions held: no
    subscription is lost and none is made twice. *)
Theorem subscriptions_follow_resolved_map (renders : list ChannelProps)
    (last : ChannelProps) (s : Binding * SubscriptionEffect) :
  settled s.2 →
  from_option channelsOnly True (resolvedChannelsRef s.1) →
  Forall plainProps (renders ++ [last]) →
  let s' := renderAllChannels (renders ++ [last]) s in
  thrown s'.2 = None
  ∧ from_option channelsOnly True (resolvedChannelsRef s'.1)
  ∧ unsubs s'.2 = entriesOf (resolvedChannelsRef s'.1)
  ∧ ∀ ch, countIf (isSubscribeOn ch) (channelCalls s'.2)
          = countIf (isUnsubscribeOn ch) (channelCalls s'.2)
            + countIf (λ entry, bool_decide (entry.2 = ch))
                (entriesOf (resolvedChannelsRef s'.1)).
Proof.
  intros Hsettled Honly [Hplain [Hlast _]%Forall_cons]%Forall_app s'.
  subst s'. rewrite renderAllChannels_app.
  destruct (settled_renderAllChannels renders s Hplain Hsettled Honly)
    as [Hsettled1 Honly1].
  set (s1 := renderAllChannels renders s) in *.
  rewrite renderAllChannels_cons by apply Hsettled1.
  change (renderAllChannels [] ?x) with x.
  destruct (settled_renderChannels last s1 Hlast Hsettled1 Honly1)
    as ((Hthrown & Hunsubs & Hcounts) & Honly' & Hresolved).
  cbn zeta in *. rewrite Hresolved in Hunsubs.
  split; [done|]. split; [done|]. split; [done|].
  intros ch. specialize (Hcounts ch).
  unfold activeOn in Hcounts. by rewrite Hunsubs in Hcounts.
Qed.

(** X9. Unmounting releases every subscription.  After any run of renders
    with such props, the cleanup run at unmount leaves no subscription
    held, and on every channel as many unsubscribe calls as [subscribe]
    calls have been made. *)
Theorem unmount_releases_every_subscription (renders : list ChannelProps)
    (s : Binding * SubscriptionEffect) :
  settled s.2 →
  from_option channelsOnly True (resolvedChannelsRef s.1) →
  Forall plainProps renders →
  let e' := unmountChannels (renderAllChannels renders s).2 in
  unsubs e' = []
  ∧ ∀ ch, countIf (isSubscribeOn ch) (channelCalls e')
          = countIf (isUnsubscribeOn ch) (channelCalls e').
Proof.
  intros Hsettled Honly Hplain e'.
  destruct (settled_renderAllChannels renders s Hplain Hsettled Honly)
    as [(_ & _ & Hcounts) _].
  split; [done|]. intros ch. subst e'. cbn [unmountChannels channelCalls].
  rewrite !countIf_app.
  destruct (countIf_unsubscribe_calls ch (unsubs (renderAllChannels renders s).2))
    as [-> ->].
  specialize (Hcounts ch). unfold activeOn in Hcounts. lia.
Qed.




(** An instance: with [counter] bound and subscribed, a map that adds the
    key [constructor] comes in. *)
Lemma subscription_effect_throws_on_inherited_member :
  let s := renderAllChannels
             [{| props_strategy := sticky; props_channelTransitionsId := None;
                 props_eventChannels := Some mapWithConstructor |}]
             (boundToA, subscribedToA) in
  thrown s.2 = Some (TypeError "ch.subscribe is not a function")
  ∧ unsubs s.2 = []
  ∧ unsubs (unmountChannels s.2) = []
  ∧ channelCalls (unmountChannels s.2) = channelCalls s.2.
Proof. by vm_compute. Qed.

(** ** Channel binding in the oldest snapshot *)

Lemma snapshot0_renderAllChannels_cons p renders s :
  Snapshot0Runner.renderAllChannels (p :: renders) s
  = Snapshot0Runner.renderAllChannels renders (Snapshot0Runner.renderChannels p s).
Proof. done. Qed.

Lemma snapshot0_committed_effect_stays renders : ∀ s,
  Snapshot0Runner.committed s.2 = true →
  (Snapshot0Runner.renderAllChannels renders s).2 = s.2.
Proof.
  induction renders as [|p renders IH]; intros [ref e] Hcommitted; [done|].
  assert ((Snapshot0Runner.renderChannels p (ref, e)).2 = e) as Hstep.
  { cbn. unfold Snapshot0Runner.subscriptionEffect. cbn in Hcommitted.
    by rewrite Hcommitted. }
  rewrite snapshot0_renderAllChannels_cons, IH; [done|].
  by rewrite Hstep.
Qed.

Lemma snapshot0_kept_map_stays renders : ∀ kept e,
  (Snapshot0Runner.renderAllChannels renders (Some kept, e)).1 = Some kept.
Proof.
  induction renders as [|p renders IH]; intros kept e; [done|].
  rewrite snapshot0_renderAllChannels_cons. apply (IH kept).
Qed.

Lemma snapshot0_late_map_is_kept renders : ∀ e m,
  Some m ∈ renders →
  is_Some (Snapshot0Runner.renderAllChannels renders (None, e)).1.
Proof.
  induction renders as [|p renders IH]; intros e m Hin;
    [by apply elem_of_nil in Hin|].
  rewrite snapshot0_renderAllChannels_cons.
  destruct p as [kept|].
  - change (Snapshot0Runner.renderChannels (Some kept) (None, e))
      with (Some kept, Snapshot0Runner.subscriptionEffect (Some kept) e).
    by rewrite snapshot0_kept_map_stays.
  - apply elem_of_cons in Hin as [?|Hin]; [done|].
    by apply (IH _ m).
Qed.

(** X10. In the oldest snapshot the first render decides.  The map of the
    first render stays in the ref whatever maps come later, the channels
    subscribed to are those of the first render and no other call is ever
    made on a channel; when the first render has no map, a map supplied later
    is put in the ref (steps read its channels) but is never subscribed
    to. *)
Theorem snapshot0_first_render_decides (first : option TypedChannels)
    (rest : list (option TypedChannels)) :
  let s := Snapshot0Runner.renderAllChannels (first :: rest) Snapshot0Runner.fresh in
  (∀ m, first = Some m → s.1 = Some m)
  ∧ Snapshot0Runner.subscribed s.2
    = from_option (λ m, (map_to_list (channels m)).*2) [] first
  ∧ Snapshot0Runner.cleanup s.2 = Snapshot0Runner.subscribed s.2
  ∧ (first = None → ∀ m, Some m ∈ rest →
     is_Some s.1 ∧ Snapshot0Runner.subscribed s.2 = []).
Proof.
  cbn zeta.
  rewrite snapshot0_renderAllChannels_cons.
  set (s1 := Snapshot0Runner.renderChannels first Snapshot0Runner.fresh).
  assert ((Snapshot0Runner.renderAllChannels rest s1).2 = s1.2) as Heffect.
  { apply snapshot0_committed_effect_stays. subst s1. by destruct first. }
  rewrite Heffect. split; [|split; [|split]].
  - intros m ->. apply snapshot0_kept_map_stays.
  - subst s1. by destruct first.
  - subst s1. by destruct first.
  - intros -> m Hin. split; [|done].
    by apply (snapshot0_late_map_is_kept rest _ m).
Qed.

(** ** The runner over its life *)

Section RunnerMore.
Context {V : Type}.
Implicit Types (flow : FlowDefinition V) (r : Runner V) (step : FlowStep V).
Implicit Types (events : option EventChannels) (closure : Closure V).

Lemma applyTransition_currentStep flow (next : option string) r :
  isMounted r = true →
  currentStep (state (applyTransition flow next r))
  = match next with
    | Some name =>
        if truthy name && bool_decide (is_Some (readProperty (steps flow) name))
        then name else currentStep (state r)
    | None => currentStep (state r)
    end.
Proof.
  intros Hmounted. unfold applyTransition. rewrite Hmounted. cbn [negb].
  destruct next as [name|]; [|done]. by destruct (_ && _).
Qed.

(** [applyTransition] stays, or moves to a name that [flow.steps] answers
    to. *)
Lemma applyTransition_stays_or_moves flow (next : option string) r :
  currentStep (state (applyTransition flow next r)) = currentStep (state r)
  ∨ is_Some (readProperty (steps flow)
               (currentStep (state (applyTransition flow next r)))).
Proof.
  destruct (isMounted r) eqn:Hmounted.
  - rewrite applyTransition_currentStep by done.
    destruct next as [name|]; [|by left].
    destruct (truthy name); cbn [andb]; [|by left].
    destruct (bool_decide _) eqn:Hstep; [|by left].
    right. by apply bool_decide_eq_true in Hstep.
  - left. unfold applyTransition. by rewrite Hmounted.
Qed.

Lemma applyTransition_mounted_fields flow (next : option string) r :
  isMounted r = true →
  renders (applyTransition flow next r) = S (renders r)
  ∧ data (state (applyTransition flow next r)) = data (state r)
  ∧ busy (applyTransition flow next r) = busy r
  ∧ console (applyTransition flow next r) = console r
  ∧ tick (applyTransition flow next r) = tick r.
Proof.
  intros Hmounted. unfold applyTransition. rewrite Hmounted. cbn [negb].
  destruct next as [name|]; [|done]. by destruct (_ && _).
Qed.

Lemma applyTransition_unmounted flow (next : option string) r :
  isMounted r = false → applyTransition flow next r = r.
Proof. unfold applyTransition. by intros ->. Qed.

(** What the listener of a channel does, by the result of the resolver and
    the runner as the resolver left it. *)
Lemma runChannelTransition_unfold flow events channelKey closure r :
  runChannelTransition flow events channelKey closure r = setTick r
  ∨ ∃ result r1,
      currentStep (state r1) = currentStep (state r)
      ∧ isMounted r1 = isMounted r
      ∧ busy r1 = busy r ∧ renders r1 = renders r ∧ console r1 = console r
      ∧ tick r1 = tick r
      ∧ runChannelTransition flow events channelKey closure r
        = match result with
          | Ok nextStep =>
              if truthyOpt nextStep then applyTransition flow nextStep r1
              else setTick r1
          | Raise e =>
              setTick (console_error "FlowRunner channel transition error:" e r1)
          end.
Proof.
  unfold runChannelTransition.
  destruct (channelTransitions flow ≫= _) as [[resolver|name]|]; [| |by left].
  - right. destruct (resolver _) as [result d'].
    exists result, (mutatedThrough closure d' r).
    by destruct closure.
  - right. by exists (callPrototypeMember name), r.
Qed.

Lemma handle_stays_or_moves flow events (t : Trigger V) r :
  currentStep (state (handle flow events t r)) = currentStep (state r)
  ∨ is_Some (readProperty (steps flow) (currentStep (state (handle flow events t r)))).
Proof.
  destruct t as [output closure|channelKey closure| | |]; cbn [handle].
  - destruct (readProperty (steps flow) (currentStep (capturedState closure r)))
      as [[uiStep|name]|]; [|by left|by left].
    destruct (view uiStep); [|by left].
    pose proof (outputHandle_emit_cases flow uiStep events closure output r)
      as Hemit.
    assert (∀ d', currentStep (state (mutatedThrough closure d' r))
                  = currentStep (state r)) as Hstep by (by destruct closure).
    destruct (onOutput uiStep output events _) as [[next|e] d']; rewrite Hemit;
      cbn [snd]; [|left; by rewrite <-(Hstep d')].
    rewrite <-(Hstep d'). apply applyTransition_stays_or_moves.
  - destruct (runChannelTransition_unfold flow events channelKey closure r)
      as [->|(result & r1 & Hstep & _ & _ & _ & _ & _ & ->)]; [by left|].
    destruct result as [next|e]; [|left; by rewrite <-Hstep].
    destruct (truthyOpt next); [|left; by rewrite <-Hstep].
    rewrite <-Hstep. apply applyTransition_stays_or_moves.
  - unfold actionEffect, tryCatchFinally.
    destruct (readProperty (steps flow) (currentStep (state r)))
      as [[step|name]|]; [|by left|by left].
    destruct (isActionStep step); cbn [negb]; [|by left].
    destruct (action step) as [act|]; [|by left].
    destruct (runAction step act events _) as [[next|e] d'].
    + cbn [snd].
      pose proof (applyTransition_stays_or_moves flow next
                    (mutated d' (setBusy true r))) as Hmove.
      by destruct (isMounted (applyTransition _ _ _)).
    + cbn [snd]. left. by destruct (isMounted _).
  - unfold render.
    destruct (readProperty (steps flow) (currentStep (state r)))
      as [[step|name]|]; [|by left|by left].
    destruct (isActionStep step); [by left|].
    by destruct (input step events (data (state r))) as [[i|e] d'], (view step);
      left.
  - by left.
Qed.

Lemma runTriggers_keeps_step flow triggers : ∀ r,
  is_Some (readProperty (steps flow) (currentStep (state r))) →
  is_Some (readProperty (steps flow)
             (currentStep (state (runTriggers flow triggers r)))).
Proof.
  induction triggers as [|[events t] triggers IH]; intros r Hstep; [done|].
  cbn [runTriggers foldl]. apply IH. cbn [fst snd].
  by destruct (handle_stays_or_moves flow events t r) as [->|?].
Qed.

(** X11. The lookup of the current step never comes back [undefined].  On
    a flow that [defineFlow] returned, [flow.steps[currentStep]] finds
    something when the runner starts and, whatever the views emit, the
    channels notify, the effects and the renders do, in whatever order, it
    finds something afterwards: the current step is a key of [flow.steps]
    or the name of a member of [Object.prototype], and the branch of the
    component for an unknown step is never taken. *)
Theorem currentStep_always_names_a_step (given : gmap string (FlowStep V))
    (options : DefineFlowOptions V) flow (initialData : gmap string V)
    (triggers : list (option EventChannels * Trigger V)) :
  defineFlow given options = Ok flow →
  let r := runTriggers flow triggers (mount flow initialData) in
  is_Some (readProperty (steps flow) (currentStep (state (mount flow initialData))))
  ∧ is_Some (readProperty (steps flow) (currentStep (state r)))
  ∧ (is_Some (steps flow !! currentStep (state r))
     ∨ currentStep (state r) ∈ objectPrototype).
Proof.
  intros Hflow%defineFlow_start_is_step r.
  assert (is_Some (readProperty (steps flow) (currentStep (state r)))) as Hstep
    by (by apply runTriggers_keeps_step).
  split; [done|]. split; [done|]. by apply readProperty_is_Some.
Qed.

Lemma handle_unmounted flow events (t : Trigger V) r :
  isMounted r = false →
  isMounted (handle flow events t r) = false
  ∧ currentStep (state (handle flow events t r)) = currentStep (state r).
Proof.
  intros Hmounted.
  destruct t as [output closure|channelKey closure| | |]; cbn [handle].
  - destruct (readProperty (steps flow) (currentStep (capturedState closure r)))
      as [[uiStep|name]|]; [|done|done].
    destruct (view uiStep); [|done].
    pose proof (outputHandle_emit_cases flow uiStep events closure output r)
      as Hemit.
    assert (∀ d', currentStep (state (mutatedThrough closure d' r))
                  = currentStep (state r)
                  ∧ isMounted (mutatedThrough closure d' r) = false)
      as Hsame by (by destruct closure).
    destruct (onOutput uiStep output events _) as [[next|e] d']; rewrite Hemit;
      cbn [snd]; destruct (Hsame d') as [Hstep Hstill]; [|by cbn].
    by rewrite applyTransition_unmounted.
  - destruct (runChannelTransition_unfold flow events channelKey closure r)
      as [->|(result & r1 & Hstep & Hsame & _ & _ & _ & _ & ->)]; [done|].
    rewrite Hmounted in Hsame.
    destruct result as [next|e]; [|by cbn; rewrite Hsame, Hstep].
    destruct (truthyOpt next); [|by cbn; rewrite Hsame, Hstep].
    by rewrite applyTransition_unmounted, Hsame, Hstep.
  - unfold actionEffect, tryCatchFinally.
    destruct (readProperty (steps flow) (currentStep (state r)))
      as [[step|name]|]; [|done|done].
    destruct (isActionStep step); cbn [negb]; [|done].
    destruct (action step) as [act|]; [|done].
    destruct (runAction step act events _) as [[next|e] d']; cbn [snd].
    + rewrite applyTransition_unmounted by done. cbn. by rewrite Hmounted.
    + cbn. by rewrite Hmounted.
  - unfold render.
    destruct (readProperty (steps flow) (currentStep (state r)))
      as [[step|name]|]; [|done|done].
    destruct (isActionStep step); [done|].
    by destruct (input step events (data (state r))) as [[i|e] d'], (view step).
  - done.
Qed.

Lemma runTriggers_unmounted flow triggers : ∀ r,
  isMounted r = false →
  isMounted (runTriggers flow triggers r) = false
  ∧ currentStep (state (runTriggers flow triggers r)) = currentStep (state r).
Proof.
  induction triggers as [|[events t] triggers IH]; intros r Hmounted; [done|].
  cbn [runTriggers foldl]. cbn [fst snd].
  destruct (handle_unmounted flow events t r Hmounted) as [Hstill Hstep].
  destruct (IH _ Hstill) as [Hfinal Hsame].
  split; [done|]. by rewrite <-Hstep.
Qed.

Lemma runTriggers_app flow triggers1 triggers2 r :
  runTriggers flow (triggers1 ++ triggers2) r
  = runTriggers flow triggers2 (runTriggers flow triggers1 r).
Proof. unfold runTriggers. apply foldl_app. Qed.

(** X12. Once the component has unmounted, the runner never moves again:
    whatever settles or is emitted afterwards (an action in flight, a
    resolver, a late output), the step pointer is the one it had at unmount
    and the runner stays unmounted. *)
Theorem unmounted_runner_never_moves flow
    (before after : list (option EventChannels * Trigger V)) events r :
  let unmounted := runTriggers flow (before ++ [(events, Unmounts)]) r in
  isMounted (runTriggers flow after unmounted) = false
  ∧ currentStep (state (runTriggers flow after unmounted))
    = currentStep (state unmounted)
  ∧ currentStep (state unmounted) = currentStep (state (runTriggers flow before r)).
Proof.
  cbn zeta. rewrite runTriggers_app.
  set (r1 := runTriggers flow before r).
  change (runTriggers flow [(events, Unmounts)] r1) with (unmount r1).
  destruct (runTriggers_unmounted flow after (unmount r1) eq_refl) as [Hstill Hsame].
  by rewrite Hstill, Hsame.
Qed.

(** X13. What a channel emission does to a mounted runner.  The listener
    is a closure of the render whose effect subscribed it: the resolver
    registered for the channel is given the step and the data object of
    that render, which are those of the runner only if no transition has
    happened since.  One re-render is requested, [busy] is left alone; the
    data of the runner is what the resolver made of it when the closure
    holds the data object the runner has, and is untouched when the closure
    holds an older one; the step changes only when the resolver returned a
    name that [flow.steps] answers to, and then to that name; when the
    resolver throws, the error is logged and the step stays; with nothing
    registered under the channel key, own or inherited, only the tick
    moves. *)
Theorem channel_emission_on_mounted_runner flow events channelKey closure r :
  isMounted r = true →
  let r' := runChannelTransition flow events channelKey closure r in
  let context := {| ctx_data := data (capturedState closure r);
                    ctx_currentStep := currentStep (capturedState closure r);
                    ctx_events := events;
                    ctx_channelKey := channelKey |} in
  let registered := channelTransitions flow ≫= λ t, resolvers t !! channelKey in
  renders r' = S (renders r)
  ∧ busy r' = busy r
  ∧ isMounted r' = true
  ∧ (∀ resolver, registered = Some resolver →
       data (state r') = match closure with
                         | OfThisRender => (resolver context).2
                         | OfEarlierRender _ => data (state r)
                         end
       ∧ (currentStep (state r') ≠ currentStep (state r) →
          (resolver context).1 = Ok (Some (currentStep (state r')))
          ∧ is_Some (readProperty (steps flow) (currentStep (state r'))))
       ∧ (∀ e, (resolver context).1 = Raise e →
            console r' = console r ++ [("FlowRunner channel transition error:", e)]
            ∧ currentStep (state r') = currentStep (state r)
            ∧ tick r' = S (tick r)))
  ∧ (registered = None → channelKey ∉ objectPrototype → r' = setTick r).
Proof.
  intros Hmounted r' context registered. subst r' registered.
  split_and!.
  - destruct (runChannelTransition_unfold flow events channelKey closure r)
      as [->|(result & r1 & _ & Hsame & _ & Hrenders & _ & _ & ->)]; [done|].
    rewrite Hmounted in Hsame.
    destruct result as [next|e]; [|by cbn; rewrite Hrenders].
    destruct (truthyOpt next); [|by cbn; rewrite Hrenders].
    destruct (applyTransition_mounted_fields flow next r1 Hsame) as (-> & _).
    by rewrite Hrenders.
  - destruct (runChannelTransition_unfold flow events channelKey closure r)
      as [->|(result & r1 & _ & Hsame & Hbusy & _ & _ & _ & ->)]; [done|].
    rewrite Hmounted in Hsame.
    destruct result as [next|e]; [|by cbn; rewrite Hbusy].
    destruct (truthyOpt next); [|by cbn; rewrite Hbusy].
    destruct (applyTransition_mounted_fields flow next r1 Hsame) as (_ & _ & -> & _).
    by rewrite Hbusy.
  - destruct (runChannelTransition_unfold flow events channelKey closure r)
      as [->|(result & r1 & _ & Hsame & _ & _ & _ & _ & ->)]; [done|].
    rewrite Hmounted in Hsame.
    destruct result as [next|e]; [|by cbn; rewrite Hsame].
    destruct (truthyOpt next); [|by cbn; rewrite Hsame].
    by rewrite applyTransition_isMounted.
  - intros resolver Hresolver.
    pose proof (runChannelTransition_cases flow events channelKey closure r
                  resolver Hresolver) as Hcases.
    fold context in Hcases.
    assert (isMounted (mutatedThrough closure (resolver context).2 r) = true)
      as Hmounted1 by (by destruct closure).
    assert (data (state (mutatedThrough closure (resolver context).2 r))
            = match closure with
              | OfThisRender => (resolver context).2
              | OfEarlierRender _ => data (state r)
              end) as Hdata by (by destruct closure).
    assert (currentStep (state (mutatedThrough closure (resolver context).2 r))
            = currentStep (state r)) as Hstep by (by destruct closure).
    assert (console (mutatedThrough closure (resolver context).2 r) = console r
            ∧ tick (mutatedThrough closure (resolver context).2 r) = tick r)
      as [Hconsole Htick] by (by destruct closure).
    destruct (resolver context) as [[[name|]|e] d'] eqn:Hresult; cbn [fst snd] in *.
    + destruct (truthy name) eqn:Hname.
      * rewrite Hcases by (by apply truthy_spec).
        destruct (applyTransition_mounted_fields flow (Some name) _ Hmounted1)
          as (_ & -> & _).
        rewrite applyTransition_currentStep by done. rewrite Hname. cbn [andb].
        split; [done|]. split; [|done].
        destruct (bool_decide _) eqn:Hfound; [|by rewrite Hstep].
        intros _. split; [done|]. by apply bool_decide_eq_true in Hfound.
      * unfold runChannelTransition, readProperty.
        destruct (channelTransitions flow) as [t|]; [|done].
        cbn [mbind option_bind] in *. unfold ChannelTransitionResolver in *.
        rewrite Hresolver. fold context. rewrite Hresult. cbn. rewrite Hname.
        cbn. rewrite Hdata, Hstep. done.
    + rewrite Hcases. cbn. rewrite Hdata, Hstep. done.
    + rewrite Hcases. cbn. rewrite Hdata, Hstep, Hconsole, Htick.
      split; [done|]. split; [done|]. by intros ? [= <-].
  - intros Hnone Hplain. unfold runChannelTransition, readProperty.
    destruct (channelTransitions flow) as [t|]; [|done].
    cbn [mbind option_bind] in *. unfold ChannelTransitionResolver in *.
    rewrite Hnone. by rewrite bool_decide_eq_false_2.
Qed.

Ltac open_actionEffect Hstep Haction Hact :=
  unfold actionEffect, tryCatchFinally;
  rewrite (readProperty_own _ _ _ Hstep), Haction, Hact; cbn [negb];
  match goal with
  | |- context [data (state (setBusy true ?r))] =>
      change (data (state (setBusy true r))) with (data (state r))
  end.

(** X14. An action step that completes: when [input], [action] and
    [onOutput] return on a mounted runner, the effect settles normally with
    nothing logged, [busy] is [false] again, the data is as the callbacks
    left it, and the runner is on the name [onOutput] returned if that is
    not empty and [flow.steps] answers to it (a key of [flow.steps], or the
    name of a member of [Object.prototype]), and on the step it was on
    otherwise. *)
Theorem actionEffect_completes_and_moves flow events r step act
    (next : option string) d' :
  isMounted r = true →
  steps flow !! currentStep (state r) = Some step →
  isActionStep step = true →
  action step = Some act →
  runAction step act events (data (state r)) = (Ok next, d') →
  let r' := (actionEffect flow events r).2 in
  (actionEffect flow events r).1 = Ok ()
  ∧ busy r' = false
  ∧ console r' = console r
  ∧ data (state r') = d'
  ∧ isMounted r' = true
  ∧ renders r < renders r'
  ∧ currentStep (state r')
    = match next with
      | Some name =>
          if truthy name
             && bool_decide (is_Some (steps flow !! name) ∨ name ∈ objectPrototype)
          then name else currentStep (state r)
      | None => currentStep (state r)
      end.
Proof.
  intros Hmounted Hstep Haction Hact Hruns.
  open_actionEffect Hstep Haction Hact.
  rewrite Hruns. cbn [fst snd].
  set (r1 := mutated d' (setBusy true r)).
  assert (isMounted r1 = true) as Hmounted1 by done.
  pose proof (applyTransition_currentStep flow next r1 Hmounted1) as Hmoved.
  destruct (applyTransition_mounted_fields flow next r1 Hmounted1)
    as (Hrenders & Hdata & Hbusy & Hconsole & Htick).
  rewrite applyTransition_isMounted, Hmounted1.
  split_and!; try done.
  - change (isMounted (applyTransition flow next r1) = true).
    by rewrite applyTransition_isMounted.
  - cbn [setBusy renders]. rewrite Hrenders, Hbusy. subst r1. cbn.
    destruct (bool_decide (busy r = true)), (bool_decide (true = false)); lia.
  - transitivity (currentStep (state (applyTransition flow next r1))); [done|].
    rewrite Hmoved. destruct next as [name|]; [|done].
    erewrite bool_decide_ext; [done|]. apply readProperty_is_Some.
Qed.

(** X15. A step that carries a view is a UI step, also when it carries an
    action as well: the effect does not run the action and leaves the runner
    as it is, and the component renders the view with the input the step
    computes (or throws what [input] throws). *)
Theorem step_with_view_is_rendered_not_run flow events r step component :
  steps flow !! currentStep (state r) = Some step →
  view step = Some component →
  isActionStep step = false
  ∧ actionEffect flow events r = (Ok (), r)
  ∧ match input step events (data (state r)) with
    | (Ok i, d') =>
        render flow events r = (Ok (ViewComponent component i), mutated d' r)
    | (Raise e, d') => render flow events r = (Raise e, mutated d' r)
    end.
Proof.
  intros Hstep Hview.
  assert (isActionStep step = false) as Hui.
  { unfold isActionStep. rewrite Hview.
    rewrite (bool_decide_eq_true_2 (is_Some (Some component))) by done.
    apply andb_false_r. }
  split; [done|]. split.
  - unfold actionEffect. by rewrite (readProperty_own _ _ _ Hstep), Hui.
  - unfold render. rewrite (readProperty_own _ _ _ Hstep), Hui, Hview.
    by destruct (input step events (data (state r))) as [[i|e] d'].
Qed.

Lemma objectPrototype_truthy name : name ∈ objectPrototype → truthy name = true.
Proof.
  intros Hname.
  assert (Forall (λ n, truthy n = true) objectPrototype) as Hall
    by (by repeat constructor).
  by apply (proj1 (Forall_forall _ _) Hall).
Qed.

(** X18. A step name that is not a key of [flow.steps] but names a member
    of [Object.prototype] is taken as a step all the same: [defineFlow]
    accepts it as [start], a mounted runner moves to it when a callback
    returns it, and on it the effect has nothing to run and the component
    throws, because the member found has no [input] to call. *)
Theorem inherited_step_name_breaks_render flow events name r :
  isMounted r = true →
  name ∈ objectPrototype →
  steps flow !! name = None →
  let r' := applyTransition flow (Some name) r in
  defineFlow (steps flow) {| options_start := name;
                             options_channelTransitions := channelTransitions flow |}
  = Ok {| steps := steps flow; start := name;
          channelTransitions := channelTransitions flow |}
  ∧ currentStep (state r') = name
  ∧ actionEffect flow events r' = (Ok (), r')
  ∧ render flow events r' = (Raise (TypeError "uiStep.input is not a function"), r').
Proof.
  intros Hmounted Hname Hnone r'.
  assert (readProperty (steps flow) name = Some (Builtin name)) as Hfound.
  { unfold readProperty. by rewrite Hnone, bool_decide_eq_true_2. }
  assert (currentStep (state r') = name) as Hstep.
  { subst r'. rewrite applyTransition_currentStep by done.
    rewrite objectPrototype_truthy, Hfound by done.
    by rewrite bool_decide_eq_true_2. }
  split_and!; [|done| |].
  - unfold defineFlow. cbn. rewrite objectPrototype_truthy, Hfound by done.
    by rewrite bool_decide_eq_true_2.
  - unfold actionEffect. by rewrite Hstep, Hfound.
  - unfold render. by rewrite Hstep, Hfound.
Qed.

End RunnerMore.

(** ** These theorems at concrete inputs *)

(** Listener 4 joins the observers 3 and 5, and listener 3 leaves them. *)
Lemma emit_follows_subscriptions_witness :
  emit observers 10 (Direct 9)
    {| chan := subscribe 4 {| value := 5; listeners := [Some 3; Some 5] |};
       calls := [] |}
  = Returned {| chan := {| value := 9; listeners := [Some 3; Some 5; Some 4] |};
                calls := [3; 5; 4] |}
  ∧ ∃ w', emit observers 10 (Direct 9)
            {| chan := unsubscribe 3 {| value := 5; listeners := [Some 3; Some 5] |};
               calls := [] |}
          = Returned w'
       ∧ value (chan w') = 9 ∧ calls w' = [5] ∧ 3 ∉ calls w'.
Proof.
  split.
  - apply (emit_follows_subscriptions observers (Direct 9)
             {| value := 5; listeners := [Some 3; Some 5] |} 4 10);
      [reflexivity|cbn; lia|reflexivity|reflexivity].
  - apply (emit_follows_subscriptions observers (Direct 9)
             {| value := 5; listeners := [Some 3; Some 5] |} 3 10);
      [reflexivity|cbn; lia].
Defined.

(** An observer and then the listener that subscribes itself again. *)
Lemma resubscribing_listener_never_returns_witness :
  emit resubscribingFirst 1000 (Direct 9) (worldOf 5 [Some 3; Some 1]) = OutOfFuel.
Proof.
  apply (resubscribing_listener_never_returns resubscribingFirst (Direct 9)
           (worldOf 5 [Some 3; Some 1]) [Some 3] 1);
    reflexivity.
Defined.

(** A counter incremented twice and then set. *)
Lemma emits_compose_witness :
  emitAll observers 10 [Callable S; Callable S; Direct 40; Callable S]
    (worldOf 0 [Some 1; Some 2])
  = Returned {| chan := {| value := 41; listeners := [Some 1; Some 2] |};
                calls := [1; 2; 1; 2; 1; 2; 1; 2] |}.
Proof.
  apply (emits_compose observers [Callable S; Callable S; Direct 40; Callable S]
           (worldOf 0 [Some 1; Some 2]) 10);
    [reflexivity|cbn; lia].
Defined.

(** [refresh] is bound to channel 11, dropped, and bound again: to 99. *)
Lemma sticky_forgets_dropped_keys_witness :
  boundChannel boundToTwo "refresh" = Some (Declared 11)
  ∧ channels mapA' !! "refresh" = None
  ∧ boundChannel (resolveAll sticky [Some mapA'; Some mapTwoB] boundToTwo) "refresh"
    = Some (Declared 99).
Proof.
  split; [reflexivity|]. split; [reflexivity|].
  apply (proj1 (sticky_forgets_dropped_keys boundToTwo "refresh" mapTwoB) mapA').
  - reflexivity.
  - apply (bool_decide_unpack _). vm_compute. exact I.
  - apply (bool_decide_unpack _). vm_compute. exact I.
Defined.

(** The same map object twice, then a new object with the same bindings. *)
Lemma equal_maps_across_two_renders_witness :
  (renderChannels sticky None (Some mapA')
     (renderChannels sticky None (Some mapA) (unbound, noSubscriptions)).2).1
  = (renderChannels sticky None (Some mapA) (unbound, noSubscriptions)).1
  ∧ channelCalls
      (renderChannels sticky None (Some mapA')
         (renderChannels sticky None (Some mapA) (unbound, noSubscriptions)).2).2.2
    = channelCalls
        (renderChannels sticky None (Some mapA) (unbound, noSubscriptions)).2.2.
Proof.
  apply (equal_maps_across_two_renders sticky None mapA mapA' unbound noSubscriptions).
  reflexivity.
Defined.

(** Three renders that change strategy and map, from a new runner. *)
Lemma subscriptions_follow_resolved_map_witness :
  settled noSubscriptions
  ∧ unsubs (renderAllChannels
              [{| props_strategy := sticky; props_channelTransitionsId := None;
                  props_eventChannels := Some mapTwo |};
               {| props_strategy := replace; props_channelTransitionsId := None;
                  props_eventChannels := Some mapB |};
               {| props_strategy := sticky; props_channelTransitionsId := Some 7;
                  props_eventChannels := Some mapA |}]
              (unbound, noSubscriptions)).2
    = [("counter", 20)].
Proof.
  assert (settled noSubscriptions) as Hsettled.
  { split; [reflexivity|]. split; [reflexivity|]. intros ch. reflexivity. }
  split; [exact Hsettled|].
  apply (subscriptions_follow_resolved_map
           [{| props_strategy := sticky; props_channelTransitionsId := None;
               props_eventChannels := Some mapTwo |};
            {| props_strategy := replace; props_channelTransitionsId := None;
               props_eventChannels := Some mapB |}]
           {| props_strategy := sticky; props_channelTransitionsId := Some 7;
              props_eventChannels := Some mapA |}
           (unbound, noSubscriptions) Hsettled).
  - exact I.
  - cbn [app]. apply Forall_cons. split.
    { right. apply (bool_decide_unpack _). vm_compute. exact I. }
    apply Forall_cons. split; [left; reflexivity|].
    apply Forall_cons. split; [|apply Forall_nil_2].
    right. apply (bool_decide_unpack _). vm_compute. exact I.
Defined.

(** Two renders and the unmount: channel 10 has been subscribed to twice
    and released twice. *)
Lemma unmount_releases_every_subscription_witness :
  countIf (isSubscribeOn 10)
    (channelCalls (unmountChannels
       (renderAllChannels
          [{| props_strategy := replace; props_channelTransitionsId := None;
              props_eventChannels := Some mapTwo |};
           {| props_strategy := replace; props_channelTransitionsId := None;
              props_eventChannels := Some mapA |}]
          (unbound, noSubscriptions)).2))
  = countIf (isUnsubscribeOn 10)
      (channelCalls (unmountChannels
         (renderAllChannels
            [{| props_strategy := replace; props_channelTransitionsId := None;
                props_eventChannels := Some mapTwo |};
             {| props_strategy := replace; props_channelTransitionsId := None;
                props_eventChannels := Some mapA |}]
            (unbound, noSubscriptions)).2)).
Proof.
  apply (unmount_releases_every_subscription
           [{| props_strategy := replace; props_channelTransitionsId := None;
               props_eventChannels := Some mapTwo |};
            {| props_strategy := replace; props_channelTransitionsId := None;
               props_eventChannels := Some mapA |}]
           (unbound, noSubscriptions)).
  - split; [reflexivity|]. split; [reflexivity|]. intros ch. reflexivity.
  - exact I.
  - apply Forall_cons. split; [left; reflexivity|].
    apply Forall_cons. split; [left; reflexivity|apply Forall_nil_2].
Defined.

(** In the oldest snapshot: a first render without channels, then [mapA]. *)
Lemma snapshot0_first_render_decides_witness :
  (Snapshot0Runner.renderAllChannels [Some mapA; Some mapB] Snapshot0Runner.fresh).1
  = Some mapA
  ∧ is_Some (Snapshot0Runner.renderAllChannels [None; Some mapA]
               Snapshot0Runner.fresh).1
  ∧ Snapshot0Runner.subscribed
      (Snapshot0Runner.renderAllChannels [None; Some mapA] Snapshot0Runner.fresh).2
    = [].
Proof.
  split.
  - apply (proj1 (snapshot0_first_render_decides (Some mapA) [Some mapB]) mapA).
    reflexivity.
  - destruct (snapshot0_first_render_decides None [Some mapA])
      as (_ & _ & _ & Hlate).
    apply (Hlate eq_refl mapA). apply (bool_decide_unpack _). exact I.
Defined.

(** [savingFlow] is what [defineFlow] returns, and stays on its steps over an
    effect, a render, an emission and an output. *)
Lemma currentStep_always_names_a_step_witness :
  defineFlow (steps savingFlow) (startOptions "saving") = Ok savingFlow
  ∧ is_Some (readProperty (steps savingFlow)
               (currentStep
                  (state (runTriggers savingFlow
                            [(None, ActionEffectRuns); (None, Renders);
                             (None, ChannelEmits "counter" OfThisRender);
                             (None, ViewEmits 3 OfThisRender)]
                            (mount savingFlow ∅))))).
Proof.
  split; [reflexivity|].
  apply (currentStep_always_names_a_step (steps savingFlow) (startOptions "saving")
           savingFlow ∅).
  reflexivity.
Defined.

(** The [refresh] channel of [refreshFlow] moves the runner, its [broken]
    channel logs, and its [whenIdle] channel moves the runner when the
    closure is of a render on [idle], whatever step the runner is on. *)
Lemma channel_emission_on_mounted_runner_witness :
  renders (runChannelTransition refreshFlow None "refresh" OfThisRender
             (mount refreshFlow ∅)) = 1
  ∧ console (runChannelTransition refreshFlow None "broken" OfThisRender
               (mount refreshFlow ∅))
    = [("FlowRunner channel transition error:", Error "resolver failed")]
  ∧ data (state (runChannelTransition refreshFlow None "whenIdle"
                   (OfEarlierRender {| currentStep := "idle"; data := ∅ |})
                   (mount refreshFlow ∅)))
    = ∅.
Proof.
  split; [|split].
  - apply (channel_emission_on_mounted_runner refreshFlow None "refresh" OfThisRender
             (mount refreshFlow ∅)).
    reflexivity.
  - destruct (channel_emission_on_mounted_runner refreshFlow None "broken"
                OfThisRender (mount refreshFlow ∅) eq_refl)
      as (_ & _ & _ & Hresolver & _).
    destruct (Hresolver (λ context, (Raise (Error "resolver failed"), ctx_data context))
                eq_refl) as (_ & _ & Hthrows).
    apply (Hthrows (Error "resolver failed")). reflexivity.
  - destruct (channel_emission_on_mounted_runner refreshFlow None "whenIdle"
                (OfEarlierRender {| currentStep := "idle"; data := ∅ |})
                (mount refreshFlow ∅) eq_refl)
      as (_ & _ & _ & Hresolver & _).
    destruct (Hresolver
                (λ context,
                   (Ok (if decide (ctx_currentStep context = "idle")
                        then Some "refreshed" else None),
                    <["seen" := 1]> (ctx_data context)))
                eq_refl) as (Hdata & _).
    exact Hdata.
Defined.

(** The action of [savingFlow] completes and names [done]. *)
Lemma actionEffect_completes_and_moves_witness :
  (actionEffect savingFlow None (mount savingFlow ∅)).1 = Ok ()
  ∧ busy (actionEffect savingFlow None (mount savingFlow ∅)).2 = false
  ∧ currentStep (state (actionEffect savingFlow None (mount savingFlow ∅)).2) = "done".
Proof.
  destruct (actionEffect_completes_and_moves savingFlow None (mount savingFlow ∅)
              savingStep (λ i _ d, (Ok (S i), <["value" := S i]> d))
              (Some "done") (<["value" := 1]> ∅))
    as (Hsettled & Hbusy & _ & _ & _ & _ & Hstep);
    [reflexivity|vm_compute; reflexivity|reflexivity|reflexivity|reflexivity|].
  split; [exact Hsettled|]. split; [exact Hbusy|].
  rewrite Hstep. vm_compute. reflexivity.
Defined.

(** [hybridStep] has a view and an action. *)
Lemma step_with_view_is_rendered_not_run_witness :
  actionEffect hybridFlow None (mount hybridFlow ∅) = (Ok (), mount hybridFlow ∅)
  ∧ (render hybridFlow None (mount hybridFlow ∅)).1 = Ok (ViewComponent "HybridView" 7).
Proof.
  destruct (step_with_view_is_rendered_not_run hybridFlow None (mount hybridFlow ∅)
              hybridStep "HybridView")
    as (_ & Heffect & Hrender); [vm_compute; reflexivity|reflexivity|].
  split; [exact Heffect|]. cbn in Hrender. rewrite Hrender. reflexivity.
Defined.


(** [savingFlow] has no step called [valueOf]. *)
Lemma inherited_step_name_breaks_render_witness :
  currentStep (state (applyTransition savingFlow (Some "valueOf") (mount savingFlow ∅)))
  = "valueOf"
  ∧ (render savingFlow None
       (applyTransition savingFlow (Some "valueOf") (mount savingFlow ∅))).1
    = Raise (TypeError "uiStep.input is not a function").
Proof.
  destruct (inherited_step_name_breaks_render savingFlow None "valueOf"
              (mount savingFlow ∅))
    as (_ & Hstep & _ & Hrender).
  - reflexivity.
  - apply (bool_decide_unpack _). vm_compute. exact I.
  - vm_compute. reflexivity.
  - split; [exact Hstep|]. rewrite Hrender. reflexivity.
Defined.

(** The form was rendered, and the runner is on [keeping]. *)
Lemma preserve_previous_keeps_last_view_witness :
  Snapshot2.render policySteps None (busyOn "keeping")
  = (Ok (Snapshot2.ViewComponent "FormView" 5 Snapshot2.Inert), busyOn "keeping").
Proof.
  apply (preserve_previous_keeps_last_view policySteps None
           {| Snapshot2.currentStep := "form";
              Snapshot2.data := {| Snapshot2.domain := ∅; Snapshot2.internal := ∅ |};
              Snapshot2.busy := false;
              Snapshot2.previousUiStepRef := None |}
           formStep "FormView" (busyOn "keeping") preservingStep).
  - vm_compute. reflexivity.
  - reflexivity.
  - discriminate.
  - vm_compute. reflexivity.
  - vm_compute. reflexivity.
  - reflexivity.
  - reflexivity.
Defined.
